(** * A sequential model of the chat hub of [server.go]

    The server keeps a map from client identifiers to [Client] structs; each
    struct owns a buffered Go channel of capacity 10.  Channels are reference
    values, so the model keeps them in a store ([heap]) addressed by natural
    numbers and lets a [Client] hold the address of its channel.  That way a
    channel that has been dropped from the map (by [Leave], or by a second
    [Join] under the same identifier) is still there to be inspected, and a
    [GetMessages] call that fetched its [Client] before the map changed can
    still receive from it. *)

From Stdlib Require Import Ascii.
From stdpp Require Import gmap strings list fin_maps pretty.

Local Open Scope string_scope.

Module Chat.

(** ** Go channels of strings *)

(** A buffered [chan string]: its capacity (fixed by [make]), the pending
    values in arrival order, and whether [close] has been called. *)
Record Chan := mkChan {
  cap : nat;
  buf : list string;
  closed : bool
}.

(** [make(chan string, n)] *)
Definition make_chan (n : nat) : Chan :=
  {| cap := n; buf := []; closed := false |}.

(** Outcome of [select { case ch <- msg: ... default: ... }].  A send on a
    closed channel panics, also inside a [select]. *)
Inductive SendResult :=
  | Sent (c : Chan)
  | ChanFull
  | SendPanic.

Definition try_send (msg : string) (c : Chan) : SendResult :=
  if closed c then SendPanic
  else if decide (length (buf c) < cap c)
       then Sent {| cap := cap c; buf := buf c ++ [msg]; closed := false |}
       else ChanFull.

(** Outcome of the receive [<-ch]: a value together with Go's [ok] flag and
    the channel afterwards, or the receive has to wait. *)
Inductive RecvResult :=
  | Received (v : string) (ok : bool) (c : Chan)
  | RecvWait.

Definition chan_recv (c : Chan) : RecvResult :=
  match buf c with
  | m :: rest => Received m true {| cap := cap c; buf := rest; closed := closed c |}
  | [] => if closed c then Received "" false c else RecvWait
  end.

(** [close(ch)]; closing a closed channel panics. *)
Definition chan_close (c : Chan) : option Chan :=
  if closed c then None
  else Some {| cap := cap c; buf := buf c; closed := true |}.

(** ** The server's data *)

(** [type Client struct].  The field [conn] is never assigned nor read by the
    server and is left out; [sendChan] is the address of the channel. *)
Record Client := mkClient {
  id : string;
  sendChan : nat
}.

(** [type ChatServer struct], together with the store of channels.  The mutex
    has no state of its own in a model where each critical section is one
    step. *)
Record State := mkState {
  clients : gmap string Client;
  nextID : Z;
  heap : list Chan
}.

Record Message := mkMessage {
  msg_ClientID : string;
  Content : string
}.

Record JoinRequest := mkJoinRequest { req_ClientID : string }.
Record JoinResponse := mkJoinResponse { res_ClientID : string }.

(** Go's [error]: [None] is [nil]. *)
Definition error := option string.

(** The state built by [main]. *)
Definition init : State :=
  {| clients := ∅; nextID := 1; heap := [] |}.

(** ** Message texts *)

(** The bytes of U+1F4E2 in UTF-8, the sign in front of join and leave
    notices. *)
Definition loudspeaker : string :=
  String "240"%char (String "159"%char (String "147"%char (String "162"%char EmptyString))).

(** [fmt.Sprintf("[%s]: %s", id, content)] *)
Definition broadcastMsg (clientID content : string) : string :=
  "[" +:+ clientID +:+ "]: " +:+ content.

(** [fmt.Sprintf("<sign> User %s joined", id)] *)
Definition joinMsg (clientID : string) : string :=
  loudspeaker +:+ " User " +:+ clientID +:+ " joined".

(** [fmt.Sprintf("<sign> User %s left", id)] *)
Definition leaveMsg (clientID : string) : string :=
  loudspeaker +:+ " User " +:+ clientID +:+ " left".

(** [fmt.Errorf("client %s not found", id)] *)
Definition notFound (clientID : string) : string :=
  "client " +:+ clientID +:+ " not found".

(** ** broadcastToOthers *)

(** The body of the [range] loop over the given entries, in the given order.
    [None] is a panic (send on a closed channel) or a dangling address. *)
Fixpoint broadcast_over (senderID msg : string)
    (l : list (string * Client)) (h : list Chan) : option (list Chan) :=
  match l with
  | [] => Some h
  | (k, client) :: l' =>
      if decide (k ≠ senderID) then
        match h !! sendChan client with
        | None => None
        | Some ch =>
            match try_send msg ch with
            | Sent ch' => broadcast_over senderID msg l' (<[sendChan client := ch']> h)
            | ChanFull => broadcast_over senderID msg l' h
            | SendPanic => None
            end
        end
      else broadcast_over senderID msg l' h
  end.

(** Go ranges over a map in an unspecified order; the model takes the order
    of [map_to_list], and [broadcast_over_perm] below shows that the order
    does not matter. *)
Definition broadcastToOthers (senderID msg : string) (s : State) : option State :=
  h ← broadcast_over senderID msg (map_to_list (clients s)) (heap s);
  Some {| clients := clients s; nextID := nextID s; heap := h |}.

(** ** The RPC methods *)

(** First critical section of [Join]: allocate the channel and store the new
    [Client] under the identifier, whatever was there before. *)
Definition join_register (clientID : string) (s : State) : State :=
  let client := {| id := clientID; sendChan := length (heap s) |} in
  {| clients := <[clientID := client]> (clients s);
     nextID := nextID s;
     heap := heap s ++ [make_chan 10] |}.

Definition Join (req : JoinRequest) (s : State)
    : option (State * JoinResponse * error) :=
  let s1 := join_register (req_ClientID req) s in
  s2 ← broadcastToOthers (req_ClientID req) (joinMsg (req_ClientID req)) s1;
  Some (s2, {| res_ClientID := req_ClientID req |}, None).

Definition SendMessage (msg : Message) (s : State)
    : option (State * Message * error) :=
  s1 ← broadcastToOthers (msg_ClientID msg)
         (broadcastMsg (msg_ClientID msg) (Content msg)) s;
  Some (s1, {| msg_ClientID := msg_ClientID msg; Content := "message_received" |}, None).

(** First critical section of [Leave]: if the identifier is present, delete
    it from the map and close its channel. *)
Definition leave_remove (clientID : string) (s : State) : option State :=
  match clients s !! clientID with
  | Some client =>
      ch ← heap s !! sendChan client;
      ch' ← chan_close ch;
      Some {| clients := delete clientID (clients s);
              nextID := nextID s;
              heap := <[sendChan client := ch']> (heap s) |}
  | None => Some s
  end.

Definition Leave (req : JoinRequest) (s : State)
    : option (State * JoinResponse * error) :=
  s1 ← leave_remove (req_ClientID req) s;
  s2 ← broadcastToOthers (req_ClientID req) (leaveMsg (req_ClientID req)) s1;
  Some (s2, {| res_ClientID := req_ClientID req |}, None).

(** What a [GetMessages] call comes to: it returns with the slice it wrote to
    [*messages] ([None] when it wrote nothing) and its error, or it waits on
    the channel. *)
Inductive PollResult :=
  | Returned (s : State) (messages : option (list string)) (err : error)
  | Waiting.

(** The locked lookup at the start of [GetMessages]. *)
Definition GetMessages_lookup (clientID : string) (s : State) : option Client :=
  clients s !! clientID.

(** The receive [msg := <-client.sendChan] and what follows it.  The [ok]
    flag of the receive is not asked for. *)
Definition GetMessages_recv (client : Client) (s : State) : option PollResult :=
  ch ← heap s !! sendChan client;
  match chan_recv ch with
  | Received msg _ ch' =>
      Some (Returned {| clients := clients s; nextID := nextID s;
                        heap := <[sendChan client := ch']> (heap s) |}
                     (Some [msg]) None)
  | RecvWait => Some Waiting
  end.

Definition GetMessages (clientID : string) (s : State) : option PollResult :=
  match GetMessages_lookup clientID s with
  | None => Some (Returned s None (Some (notFound clientID)))
  | Some client => GetMessages_recv client s
  end.

(** ** Sequences of operations *)

(** The four RPCs, and [OResume]: the receive of a [GetMessages] call that
    fetched [client] from the map at some earlier moment and reaches (or
    comes back to) its channel only now. *)
Inductive Op :=
  | OJoin (clientID : string)
  | OPost (clientID content : string)
  | OLeave (clientID : string)
  | OPollOne (clientID : string)
  | OResume (client : Client).

(** The state a [GetMessages] call leaves behind; a waiting call has not
    touched it. *)
Definition poll_state (s : State) (r : PollResult) : State :=
  match r with
  | Returned s' _ _ => s'
  | Waiting => s
  end.

(** One operation run to its end.  [None]: the server panicked. *)
Definition run (o : Op) (s : State) : option State :=
  match o with
  | OJoin k => r ← Join {| req_ClientID := k |} s; Some r.1.1
  | OPost k m => r ← SendMessage {| msg_ClientID := k; Content := m |} s; Some r.1.1
  | OLeave k => r ← Leave {| req_ClientID := k |} s; Some r.1.1
  | OPollOne k => poll_state s <$> GetMessages k s
  | OResume c => poll_state s <$> GetMessages_recv c s
  end.

(** The model is sequential: a call runs to its end before the next one
    starts, except that a [GetMessages] call may sit between its lookup and
    its receive while others run ([OResume]). *)
Fixpoint run_all (ops : list Op) (s : State) : option State :=
  match ops with
  | [] => Some s
  | o :: ops' => s' ← run o s; run_all ops' s'
  end.

Definition reachable (s : State) : Prop :=
  ∃ ops, run_all ops init = Some s.

(** ** Well-formed states *)

(** What a successful send or a dropped one leaves in the channel. *)
Definition enqueue (msg : string) (ch : Chan) : Chan :=
  match try_send msg ch with
  | Sent ch' => ch'
  | ChanFull | SendPanic => ch
  end.

(** Every channel was made by [Join] with capacity 10, never holds more than
    that, and holds only texts built by one of the three [Sprintf] formats. *)
Definition chan_ok (ch : Chan) : Prop :=
  cap ch = 10 ∧ (length (buf ch) ≤ cap ch)%nat ∧ Forall (λ m, m ≠ "") (buf ch).

(** The invariant of the server: every key owns an allocated, open channel;
    the record stored under a key carries that key; two keys never share a
    channel; every channel is [chan_ok]. *)
Record wf (s : State) : Prop := mkWf {
  wf_open : ∀ k c, clients s !! k = Some c →
            ∃ ch, heap s !! sendChan c = Some ch ∧ closed ch = false;
  wf_id : ∀ k c, clients s !! k = Some c → id c = k;
  wf_inj : ∀ k1 k2 c1 c2, clients s !! k1 = Some c1 → clients s !! k2 = Some c2 →
           sendChan c1 = sendChan c2 → k1 = k2;
  wf_chan : ∀ a ch, heap s !! a = Some ch → chan_ok ch
}.

(** ** What the broadcast loop sends to *)

(** The channels the loop over [l] sends to when [senderID] is excluded. *)
Definition targets (senderID : string) (l : list (string * Client)) (a : nat) : Prop :=
  ∃ k c, (k, c) ∈ l ∧ k ≠ senderID ∧ sendChan c = a.

(** Every entry of [l] has an allocated, open channel in [h]. *)
Definition all_open (l : list (string * Client)) (h : list Chan) : Prop :=
  ∀ k c, (k, c) ∈ l → ∃ ch, h !! sendChan c = Some ch ∧ closed ch = false.

(** The channels [broadcastToOthers] sends to in state [s]. *)
Definition recipient (senderID : string) (s : State) (a : nat) : Prop :=
  ∃ k c, clients s !! k = Some c ∧ k ≠ senderID ∧ sendChan c = a.

(** ** Named states and replies *)

(** The state after a sequence of operations from the initial one. *)
Definition after (ops : list Op) : State :=
  default init (run_all ops init).

(** The reply [SendMessage] fills in. *)
Definition ack (msg : Message) : Message :=
  {| msg_ClientID := msg_ClientID msg; Content := "message_received" |}.

(** Ten texts are waiting for "A" after these operations; "B" has nine. *)
Definition crowded : list Op :=
  [OJoin "A"; OJoin "B"; OJoin "C"] ++ replicate 8 (OPost "C" "again").

(** The joined participants as the specification tells them: a participant
    is joined from its [Join] until its [Leave]; posting and polling change
    nothing. *)
Definition joined_step (o : Op) (J : gset string) : gset string :=
  match o with
  | OJoin k => {[k]} ∪ J
  | OLeave k => J ∖ {[k]}
  | OPost _ _ | OPollOne _ | OResume _ => J
  end.

Fixpoint joined_after (ops : list Op) (J : gset string) : gset string :=
  match ops with
  | [] => J
  | o :: ops' => joined_after ops' (joined_step o J)
  end.

(** The four RPCs, as opposed to a resumed receive. *)
Definition is_rpc (o : Op) : Prop :=
  match o with
  | OResume _ => False
  | OJoin _ | OPost _ _ | OLeave _ | OPollOne _ => True
  end.

(** ** The client of [client.go] *)

(** The identifier [main] makes up,
    [fmt.Sprintf("User_%d", time.Now().UnixNano()%100000)], from the clock
    reading [nanos].  Go's [%] truncates towards zero. *)
Definition clientID (nanos : Z) : string :=
  "User_" +:+ pretty (nanos `rem` 100000)%Z.

(** The loop of [handleUserInput] over the strings that the successive
    [ReadString] calls return: the RPCs it issues, in order, and whether it
    came to the "exit" branch, after which it issues nothing.  [TrimSpace] is
    Go's [strings.TrimSpace].  Prompts and log lines are not kept, and the
    error of a call is only logged by the code.  When the reads are used up
    without "exit" the loop is still running. *)
Fixpoint handleUserInput (TrimSpace : string → string) (clientID : string)
    (reads : list string) : list Op * bool :=
  match reads with
  | [] => ([], false)
  | raw :: rest =>
      let msg := TrimSpace raw in
      if decide (msg = "") then handleUserInput TrimSpace clientID rest
      else if decide (msg = "exit") then ([OLeave clientID], true)
      else let '(calls, exited) := handleUserInput TrimSpace clientID rest in
           (OPost clientID msg :: calls, exited)
  end.

(** The calls of the client's [main] in its own goroutine: [Join] under the
    identifier made up from the clock, then [handleUserInput].  The
    [GetMessages] calls of the listening goroutine are not among them. *)
Definition client_main (TrimSpace : string → string) (nanos : Z)
    (reads : list string) : list Op * bool :=
  let '(calls, exited) := handleUserInput TrimSpace (clientID nanos) reads in
  (OJoin (clientID nanos) :: calls, exited).

(** ** Where a pending text comes from *)

(** [t] is the text that a call of [hist] made under an identifier other
    than [k] handed to [broadcastToOthers]: the notice of a [Join] or of a
    [Leave], or the text of a [SendMessage]. *)
Definition sent_by_other (hist : list Op) (k t : string) : Prop :=
  ∃ k', k' ≠ k ∧
        ((OJoin k' ∈ hist ∧ t = joinMsg k') ∨
         (OLeave k' ∈ hist ∧ t = leaveMsg k') ∨
         (∃ m, OPost k' m ∈ hist ∧ t = broadcastMsg k' m)).

(** Every text pending for a registered client [k] satisfies [P k]. *)
Definition pending_all (P : string → string → Prop) (s : State) : Prop :=
  ∀ k c ch, clients s !! k = Some c → heap s !! sendChan c = Some ch →
            Forall (P k) (buf ch).

(** No key of the map owns the channel at address [a]. *)
Definition unowned (s : State) (a : nat) : Prop :=
  ∀ k c, clients s !! k = Some c → sendChan c ≠ a.

(** ** Facts about channels *)

Lemma enqueue_open msg ch :
  closed ch = false →
  enqueue msg ch =
    if decide (length (buf ch) < cap ch)
    then {| cap := cap ch; buf := buf ch ++ [msg]; closed := false |}
    else ch.
Proof.
  intros Hopen. unfold enqueue, try_send. rewrite Hopen.
  by destruct (decide (length (buf ch) < cap ch)).
Qed.

Lemma enqueue_closed_flag msg ch : closed (enqueue msg ch) = closed ch.
Proof.
  unfold enqueue, try_send. destruct (closed ch) eqn:E; [done|].
  by destruct (decide (length (buf ch) < cap ch)).
Qed.

Lemma enqueue_ok msg ch : msg ≠ "" → chan_ok ch → chan_ok (enqueue msg ch).
Proof.
  intros Hne (Hcap & Hlen & Hall). unfold enqueue, try_send.
  destruct (closed ch); [done|].
  destruct (decide (length (buf ch) < cap ch)) as [Hlt|]; [|done].
  split_and!; simpl; [done | rewrite length_app; simpl; lia |].
  apply Forall_app; split; [done | by constructor].
Qed.

Lemma joinMsg_nonempty k : joinMsg k ≠ "".
Proof. done. Qed.

Lemma leaveMsg_nonempty k : leaveMsg k ≠ "".
Proof. done. Qed.

Lemma broadcastMsg_nonempty k m : broadcastMsg k m ≠ "".
Proof. done. Qed.

(** ** The effect of the broadcast loop *)

Section broadcast.
Variables senderID msg : string.

Local Abbreviation targets := (targets senderID).
Local Abbreviation recipient := (recipient senderID).

Lemma broadcast_over_spec l : ∀ h,
  NoDup ((sendChan ∘ snd) <$> l) →
  all_open l h →
  ∃ h', broadcast_over senderID msg l h = Some h' ∧
        length h' = length h ∧
        (∀ a, targets l a → h' !! a = enqueue msg <$> h !! a) ∧
        (∀ a, ¬ targets l a → h' !! a = h !! a).
Proof.
  induction l as [|[k c] l IH]; intros h Hnd Hopen.
  - exists h. split_and!; [done | done | | done].
    intros a (k & c & Hin & _). by apply elem_of_nil in Hin.
  - rewrite fmap_cons in Hnd. apply NoDup_cons in Hnd as [Hfresh Hnd].
    assert (Hother : ∀ k' c', (k', c') ∈ l → sendChan c' ≠ sendChan c).
    { intros k' c' Hin Heq. apply Hfresh.
      apply list_elem_of_fmap. exists (k', c'). by split. }
    assert (Hnt : ¬ targets l (sendChan c)).
    { intros (k' & c' & Hin & _ & Heq). by eapply Hother. }
    destruct (Hopen k c) as (ch & Hch & Hop); [left|].
    assert (Hopen_l : all_open l h).
    { intros k' c' Hin. apply (Hopen k' c'). by right. }
    simpl. destruct (decide (k ≠ senderID)) as [Hne|Heq].
    + rewrite Hch. pose proof (enqueue_open msg ch Hop) as Henq.
      unfold try_send. rewrite Hop.
      destruct (decide (length (buf ch) < cap ch)) as [Hlt|Hfull] in Henq |- *.
      * set (ch' := {| cap := cap ch; buf := buf ch ++ [msg]; closed := false |}) in *.
        destruct (IH (<[sendChan c := ch']> h) Hnd) as (h' & Hrun & Hlen & Hin & Hout).
        { intros k' c' Hin. destruct (Hopen_l k' c' Hin) as (x & Hx & Hxo).
          exists x. split; [|done].
          rewrite list_lookup_insert_ne; [done|]. intros E. by eapply Hother. }
        exists h'. split_and!; [done | by rewrite Hlen, length_insert | |].
        -- intros a (k' & c' & Hel & Hk' & Ha).
           apply elem_of_cons in Hel as [[= -> ->]|Hel].
           ++ subst a. rewrite Hout by done.
              rewrite list_lookup_insert_eq by (by eapply lookup_lt_Some).
              rewrite Hch. simpl. by rewrite Henq.
           ++ rewrite Hin by (by exists k', c').
              rewrite list_lookup_insert_ne; [done|].
              intros E. subst a. by eapply Hother.
        -- intros a Hna.
           assert (a ≠ sendChan c).
           { intros ->. apply Hna. exists k, c. split_and!; [left | done | done]. }
           rewrite Hout.
           ++ by rewrite list_lookup_insert_ne.
           ++ intros (k' & c' & Hel & Hk' & Ha). apply Hna.
              exists k', c'. split_and!; [by right | done | done].
      * destruct (IH h Hnd Hopen_l) as (h' & Hrun & Hlen & Hin & Hout).
        exists h'. split_and!; [done | done | |].
        -- intros a (k' & c' & Hel & Hk' & Ha).
           apply elem_of_cons in Hel as [[= -> ->]|Hel].
           ++ subst a. rewrite Hout by done. rewrite Hch. simpl. by rewrite Henq.
           ++ apply Hin. by exists k', c'.
        -- intros a Hna. apply Hout.
           intros (k' & c' & Hel & Hk' & Ha). apply Hna.
           exists k', c'. split_and!; [by right | done | done].
    + apply dec_stable in Heq.
      destruct (IH h Hnd Hopen_l) as (h' & Hrun & Hlen & Hin & Hout).
      exists h'. split_and!; [done | done | |].
      * intros a (k' & c' & Hel & Hk' & Ha).
        apply elem_of_cons in Hel as [[= -> ->]|Hel]; [done|].
        apply Hin. by exists k', c'.
      * intros a Hna. apply Hout.
        intros (k' & c' & Hel & Hk' & Ha). apply Hna.
        exists k', c'. split_and!; [by right | done | done].
Qed.

Lemma targets_Exists l a :
  targets l a ↔ Exists (λ e, e.1 ≠ senderID ∧ sendChan e.2 = a) l.
Proof.
  rewrite Exists_exists. split.
  - intros (k & c & Hin & H1 & H2). by exists (k, c).
  - intros ([k c] & Hin & H1 & H2). by exists k, c.
Qed.

Global Instance targets_dec l a : Decision (targets l a).
Proof.
  refine (cast_if (decide (Exists (λ e, e.1 ≠ senderID ∧ sendChan e.2 = a) l)));
    by rewrite targets_Exists.
Defined.

(** The order in which the loop visits the entries does not matter. *)
Lemma broadcast_over_perm l l' h :
  l ≡ₚ l' →
  NoDup ((sendChan ∘ snd) <$> l) →
  all_open l h →
  broadcast_over senderID msg l h = broadcast_over senderID msg l' h.
Proof.
  intros Hp Hnd Hopen.
  assert (Hnd' : NoDup ((sendChan ∘ snd) <$> l')) by (by rewrite <- Hp).
  assert (Hopen' : all_open l' h).
  { intros k c Hin. apply (Hopen k c). by rewrite Hp. }
  destruct (broadcast_over_spec l h Hnd Hopen) as (h1 & -> & Hl1 & Hin1 & Hout1).
  destruct (broadcast_over_spec l' h Hnd' Hopen') as (h2 & -> & Hl2 & Hin2 & Hout2).
  f_equal. apply list_eq. intros a.
  assert (Hiff : targets l a ↔ targets l' a).
  { unfold targets. by setoid_rewrite Hp. }
  destruct (decide (targets l a)) as [Ht|Ht].
  - rewrite Hin1 by done. rewrite Hin2 by (by apply Hiff). done.
  - rewrite Hout1 by done. rewrite Hout2 by (by rewrite <- Hiff). done.
Qed.

Lemma recipient_targets s a :
  recipient s a ↔ targets (map_to_list (clients s)) a.
Proof.
  unfold recipient, targets. by setoid_rewrite elem_of_map_to_list.
Qed.

Global Instance recipient_dec s a : Decision (recipient s a).
Proof.
  refine (cast_if (decide (targets (map_to_list (clients s)) a)));
    by rewrite recipient_targets.
Defined.

Lemma broadcastToOthers_spec s :
  wf s →
  ∃ s', broadcastToOthers senderID msg s = Some s' ∧
        clients s' = clients s ∧
        nextID s' = nextID s ∧
        length (heap s') = length (heap s) ∧
        (∀ a, recipient s a → heap s' !! a = enqueue msg <$> heap s !! a) ∧
        (∀ a, ¬ recipient s a → heap s' !! a = heap s !! a).
Proof.
  intros Hwf.
  destruct (broadcast_over_spec (map_to_list (clients s)) (heap s))
    as (h' & Hrun & Hlen & Hin & Hout).
  - apply NoDup_fmap_2_strong; [|apply NoDup_map_to_list].
    intros [k1 c1] [k2 c2] H1%elem_of_map_to_list H2%elem_of_map_to_list Heq.
    simpl in Heq. pose proof (wf_inj s Hwf _ _ _ _ H1 H2 Heq) as ->.
    congruence.
  - intros k c Hkc%elem_of_map_to_list. by eapply wf_open.
  - unfold broadcastToOthers. rewrite Hrun. simpl.
    eexists. split; [done|]. simpl. split_and!; [done | done | done | |].
    + intros a Ha. apply Hin. by apply recipient_targets.
    + intros a Ha. apply Hout. by rewrite <- recipient_targets.
Qed.

Lemma broadcastToOthers_wf s s' :
  msg ≠ "" → wf s → broadcastToOthers senderID msg s = Some s' → wf s'.
Proof.
  intros Hne Hwf Hrun.
  destruct (broadcastToOthers_spec s Hwf) as (s'' & Hrun' & Hcl & _ & _ & Hin & Hout).
  rewrite Hrun in Hrun'. injection Hrun' as <-.
  assert (Hstep : ∀ a ch', heap s' !! a = Some ch' →
            ∃ ch, heap s !! a = Some ch ∧ (ch' = ch ∨ ch' = enqueue msg ch)).
  { intros a ch' Ha. destruct (decide (recipient s a)) as [Hr|Hr].
    - rewrite Hin in Ha by done.
      destruct (heap s !! a) as [ch|]; [|done].
      injection Ha as <-. eauto.
    - rewrite Hout in Ha by done. eauto. }
  split.
  - intros k c Hkc. rewrite Hcl in Hkc.
    destruct (wf_open s Hwf k c Hkc) as (ch & Hch & Hop).
    destruct (decide (recipient s (sendChan c))) as [Hr|Hr].
    + rewrite Hin, Hch by done. eexists. split; [done|].
      by rewrite enqueue_closed_flag.
    + rewrite Hout, Hch by done. eauto.
  - intros k c Hkc. rewrite Hcl in Hkc. by eapply wf_id.
  - intros k1 k2 c1 c2. rewrite Hcl. by apply wf_inj.
  - intros a ch' Ha. destruct (Hstep a ch' Ha) as (ch & Hch & [->| ->]).
    + by eapply wf_chan.
    + apply enqueue_ok; [done|]. by eapply wf_chan.
Qed.

End broadcast.

(** ** Every operation keeps the state well formed *)

Lemma init_wf : wf init.
Proof. split; intros *; simpl; by rewrite ?lookup_empty. Qed.

Lemma make_chan_ok : chan_ok (make_chan 10).
Proof. split_and!; simpl; [done | lia | constructor]. Qed.

Lemma join_register_wf k s : wf s → wf (join_register k s).
Proof.
  intros Hwf.
  assert (Hlt : ∀ k' c', clients s !! k' = Some c' → sendChan c' < length (heap s)).
  { intros k' c' H. destruct (wf_open s Hwf _ _ H) as (ch & Hch & _).
    by eapply lookup_lt_Some. }
  split; unfold join_register; simpl.
  - intros k' c'. rewrite lookup_insert. case_decide as E.
    + intros [= <-]. simpl. exists (make_chan 10). split; [|done].
      rewrite lookup_app_r by done. by rewrite Nat.sub_diag.
    + intros H. destruct (wf_open s Hwf _ _ H) as (ch & Hch & Hop).
      exists ch. split; [|done]. rewrite lookup_app_l; [done|]. by eapply Hlt.
  - intros k' c'. rewrite lookup_insert. case_decide as E.
    + by intros [= <-].
    + by apply wf_id.
  - intros k1 k2 c1 c2. rewrite !lookup_insert.
    case_decide as E1; case_decide as E2; try congruence.
    + intros [= <-] H2 Heq. simpl in Heq. apply Hlt in H2. lia.
    + intros H1 [= <-] Heq. simpl in Heq. apply Hlt in H1. lia.
    + by apply wf_inj.
  - intros a ch Ha. apply lookup_app_Some in Ha as [Ha|[_ Ha]].
    + by eapply wf_chan.
    + apply list_lookup_singleton_Some in Ha as [_ <-]. apply make_chan_ok.
Qed.

Lemma leave_remove_total k s : wf s → is_Some (leave_remove k s).
Proof.
  intros Hwf. unfold leave_remove.
  destruct (clients s !! k) as [c|] eqn:Hk; [|done].
  destruct (wf_open s Hwf _ _ Hk) as (ch & -> & Hop). simpl.
  unfold chan_close. by rewrite Hop.
Qed.

Lemma leave_remove_wf k s s' : wf s → leave_remove k s = Some s' → wf s'.
Proof.
  intros Hwf. unfold leave_remove.
  destruct (clients s !! k) as [c|] eqn:Hk; [|by intros [= <-]].
  destruct (wf_open s Hwf _ _ Hk) as (ch & Hch & Hop).
  rewrite Hch. simpl. unfold chan_close. rewrite Hop. simpl.
  intros [= <-]. split; simpl.
  - intros k' c'. rewrite lookup_delete. case_decide as E; [done|].
    intros H. destruct (wf_open s Hwf _ _ H) as (x & Hx & Hxo).
    exists x. split; [|done]. rewrite list_lookup_insert_ne; [done|].
    intros Heq. apply E. by eapply (wf_inj s Hwf).
  - intros k' c'. rewrite lookup_delete. case_decide as E; [done|]. by apply wf_id.
  - intros k1 k2 c1 c2. rewrite !lookup_delete.
    case_decide; [done|]. case_decide; [done|]. by apply wf_inj.
  - intros a x Ha. destruct (decide (a = sendChan c)) as [->|Hne].
    + rewrite list_lookup_insert_eq in Ha by (by eapply lookup_lt_Some).
      injection Ha as <-. by destruct (wf_chan s Hwf _ _ Hch) as (? & ? & ?).
    + rewrite list_lookup_insert_ne in Ha by done. by eapply wf_chan.
Qed.

Lemma GetMessages_recv_wf c s r :
  wf s → GetMessages_recv c s = Some r → wf (poll_state s r).
Proof.
  intros Hwf. unfold GetMessages_recv.
  destruct (heap s !! sendChan c) as [ch|] eqn:Hch; [|done]. simpl.
  pose proof (wf_chan s Hwf _ _ Hch) as (Hcap & Hlen & Hall).
  unfold chan_recv.
  destruct (buf ch) as [|m rest] eqn:Hbuf.
  - destruct (closed ch) eqn:Hcl; intros [= <-]; simpl; [|done].
    rewrite list_insert_id by done. by destruct Hwf.
  - intros [= <-]. simpl. split; simpl.
    + intros k' c' H. destruct (wf_open s Hwf _ _ H) as (x & Hx & Hxo).
      destruct (decide (sendChan c' = sendChan c)) as [E|E].
      * rewrite E, list_lookup_insert_eq by (by eapply lookup_lt_Some).
        eexists. split; [done|]. simpl. congruence.
      * rewrite list_lookup_insert_ne by done. eauto.
    + by apply wf_id.
    + by apply wf_inj.
    + intros a x Ha. destruct (decide (a = sendChan c)) as [->|Hne].
      * rewrite list_lookup_insert_eq in Ha by (by eapply lookup_lt_Some).
        injection Ha as <-. split_and!; simpl; [done | simpl in Hlen; lia |].
        by inversion Hall.
      * rewrite list_lookup_insert_ne in Ha by done. by eapply wf_chan.
Qed.

Lemma run_wf o s s' : wf s → run o s = Some s' → wf s'.
Proof.
  intros Hwf. destruct o as [k|k m|k|k|c]; simpl.
  - unfold Join. simpl.
    destruct (broadcastToOthers k (joinMsg k) (join_register k s)) as [s2|] eqn:Hb;
      simpl; [|done].
    intros [= <-].
    eapply broadcastToOthers_wf; [apply joinMsg_nonempty | | done].
    by apply join_register_wf.
  - unfold SendMessage. simpl.
    destruct (broadcastToOthers k (broadcastMsg k m) s) as [s2|] eqn:Hb;
      simpl; [|done].
    intros [= <-].
    eapply broadcastToOthers_wf; [apply (broadcastMsg_nonempty k m) | done | done].
  - unfold Leave. simpl.
    destruct (leave_remove k s) as [s1|] eqn:Hl; simpl; [|done].
    destruct (broadcastToOthers k (leaveMsg k) s1) as [s2|] eqn:Hb; simpl; [|done].
    intros [= <-].
    eapply broadcastToOthers_wf; [apply leaveMsg_nonempty | | done].
    by eapply leave_remove_wf.
  - unfold GetMessages, GetMessages_lookup.
    destruct (clients s !! k) as [c|]; [|by intros [= <-]].
    destruct (GetMessages_recv c s) as [r|] eqn:Hr; simpl; [|done].
    intros [= <-]. by eapply GetMessages_recv_wf.
  - destruct (GetMessages_recv c s) as [r|] eqn:Hr; simpl; [|done].
    intros [= <-]. by eapply GetMessages_recv_wf.
Qed.

Lemma run_all_wf ops : ∀ s s', wf s → run_all ops s = Some s' → wf s'.
Proof.
  induction ops as [|o ops IH]; intros s s' Hwf; simpl.
  - by intros [= <-].
  - destruct (run o s) as [s1|] eqn:Hr; [|done]. simpl.
    apply IH. by eapply run_wf.
Qed.

Lemma reachable_wf s : reachable s → wf s.
Proof. intros [ops H]. eapply run_all_wf; [apply init_wf | done]. Qed.

Lemma reachable_after ops : is_Some (run_all ops init) → reachable (after ops).
Proof. intros [s H]. exists ops. unfold after. by rewrite H. Qed.

(** ** What each RPC does to a well-formed state *)

Lemma SendMessage_spec msg s :
  wf s →
  ∃ s', SendMessage msg s = Some (s', ack msg, None) ∧
        clients s' = clients s ∧
        length (heap s') = length (heap s) ∧
        (∀ a, recipient (msg_ClientID msg) s a →
              heap s' !! a
              = enqueue (broadcastMsg (msg_ClientID msg) (Content msg)) <$> heap s !! a) ∧
        (∀ a, ¬ recipient (msg_ClientID msg) s a → heap s' !! a = heap s !! a).
Proof.
  intros Hwf.
  destruct (broadcastToOthers_spec (msg_ClientID msg)
              (broadcastMsg (msg_ClientID msg) (Content msg)) s Hwf)
    as (s' & Hrun & Hcl & _ & Hlen & Hin & Hout).
  exists s'. unfold SendMessage. rewrite Hrun. by split_and!.
Qed.

(** A channel a registered client owns, seen through [enqueue]. *)
Lemma enqueue_registered s k c ch text :
  wf s → clients s !! k = Some c → heap s !! sendChan c = Some ch →
  enqueue text ch =
    if decide (length (buf ch) < 10)
    then {| cap := 10; buf := buf ch ++ [text]; closed := false |}
    else ch.
Proof.
  intros Hwf Hk Hch.
  destruct (wf_open s Hwf _ _ Hk) as (ch' & Hch' & Hop).
  assert (ch' = ch) as -> by congruence.
  destruct (wf_chan s Hwf _ _ Hch) as (Hcap & _).
  rewrite enqueue_open by done. by rewrite Hcap.
Qed.

Lemma registered_lt s k c :
  wf s → clients s !! k = Some c → sendChan c < length (heap s).
Proof.
  intros Hwf Hk. destruct (wf_open s Hwf _ _ Hk) as (ch & Hch & _).
  by eapply lookup_lt_Some.
Qed.

Lemma recipient_lt sender s a :
  wf s → recipient sender s a → a < length (heap s).
Proof. intros Hwf (k & c & Hk & _ & <-). by eapply registered_lt. Qed.

Lemma recipient_join_register k s a :
  recipient k (join_register k s) a ↔ recipient k s a.
Proof.
  unfold recipient, join_register. simpl.
  split; intros (k' & c & Hk & Hne & Ha); exists k', c.
  - rewrite lookup_insert_ne in Hk by done. done.
  - rewrite lookup_insert_ne by done. done.
Qed.

Lemma Join_spec k s :
  wf s →
  ∃ s', Join {| req_ClientID := k |} s = Some (s', {| res_ClientID := k |}, None) ∧
        clients s' = <[k := {| id := k; sendChan := length (heap s) |}]> (clients s) ∧
        heap s' !! length (heap s) = Some (make_chan 10) ∧
        (∀ a, recipient k s a → heap s' !! a = enqueue (joinMsg k) <$> heap s !! a) ∧
        (∀ a, a < length (heap s) → ¬ recipient k s a → heap s' !! a = heap s !! a).
Proof.
  intros Hwf. pose proof (join_register_wf k s Hwf) as Hwf1.
  destruct (broadcastToOthers_spec k (joinMsg k) _ Hwf1)
    as (s' & Hrun & Hcl & _ & _ & Hin & Hout).
  exists s'. unfold Join. simpl. rewrite Hrun. simpl.
  split_and!; [done | done | | |].
  - rewrite Hout.
    + simpl. rewrite lookup_app_r by done. by rewrite Nat.sub_diag.
    + rewrite recipient_join_register. intros Hr%recipient_lt; [lia | done].
  - intros a Hr. rewrite Hin by (by apply recipient_join_register).
    simpl. rewrite lookup_app_l; [done|]. by eapply recipient_lt.
  - intros a Hlt Hr. rewrite Hout by (by rewrite recipient_join_register).
    simpl. by rewrite lookup_app_l.
Qed.

Lemma Leave_spec k s :
  wf s →
  ∃ s1 s', leave_remove k s = Some s1 ∧ wf s1 ∧
        Leave {| req_ClientID := k |} s = Some (s', {| res_ClientID := k |}, None) ∧
        clients s1 = delete k (clients s) ∧
        clients s' = clients s1 ∧
        (∀ a, recipient k s1 a → heap s' !! a = enqueue (leaveMsg k) <$> heap s1 !! a) ∧
        (∀ a, ¬ recipient k s1 a → heap s' !! a = heap s1 !! a).
Proof.
  intros Hwf. destruct (leave_remove_total k s Hwf) as [s1 Hs1].
  pose proof (leave_remove_wf k s s1 Hwf Hs1) as Hwf1.
  destruct (broadcastToOthers_spec k (leaveMsg k) s1 Hwf1)
    as (s' & Hrun & Hcl & _ & _ & Hin & Hout).
  exists s1, s'. unfold Leave. simpl. rewrite Hs1. simpl. rewrite Hrun. simpl.
  split_and!; try done.
  unfold leave_remove in Hs1. destruct (clients s !! k) as [c|] eqn:Hk.
  - destruct (heap s !! sendChan c) as [ch|]; [|done]. simpl in Hs1.
    destruct (chan_close ch); [|done]. by injection Hs1 as <-.
  - injection Hs1 as <-. by rewrite delete_id.
Qed.

Lemma leave_remove_absent k s :
  clients s !! k = None → leave_remove k s = Some s.
Proof. intros H. unfold leave_remove. by rewrite H. Qed.

(** ** Posting *)

(** C1, as the code has it: [SendMessage] never looks the sender up.  A post
    under an identifier that is not a key of the map returns the usual
    acknowledgement with a nil error, and its text ["[id]: content"] is
    offered to the channel of every registered client (appended where there
    is room, dropped where the channel holds 10); no other channel changes. *)
Theorem SendMessage_unknown_sender_broadcasts msg s :
  reachable s →
  clients s !! msg_ClientID msg = None →
  ∃ s', SendMessage msg s
        = Some (s', {| msg_ClientID := msg_ClientID msg;
                       Content := "message_received" |}, None) ∧
        clients s' = clients s ∧
        (∀ k c ch, clients s !! k = Some c → heap s !! sendChan c = Some ch →
           heap s' !! sendChan c
           = Some (if decide (length (buf ch) < 10)
                   then {| cap := 10;
                           buf := buf ch ++ ["[" +:+ msg_ClientID msg +:+ "]: " +:+ Content msg];
                           closed := false |}
                   else ch)) ∧
        (∀ a, (∀ k c, clients s !! k = Some c → sendChan c ≠ a) →
           heap s' !! a = heap s !! a).
Proof.
  intros Hwf%reachable_wf Hnone.
  destruct (SendMessage_spec msg s Hwf) as (s' & Hrun & Hcl & _ & Hin & Hout).
  exists s'. split_and!; [done | done | |].
  - intros k c ch Hk Hch. rewrite Hin, Hch.
    + simpl. f_equal. by eapply enqueue_registered.
    + exists k, c. split_and!; [done | congruence | done].
  - intros a Ha. apply Hout. intros (k & c & Hk & _ & Heq). by eapply Ha.
Qed.

Lemma SendMessage_unknown_sender_broadcasts_witness :
  reachable (after [OJoin "B"]) ∧
  clients (after [OJoin "B"]) !! "ghost" = None ∧
  ∃ s', SendMessage {| msg_ClientID := "ghost"; Content := "hi" |} (after [OJoin "B"])
        = Some (s', {| msg_ClientID := "ghost"; Content := "message_received" |}, None) ∧
        clients s' = clients (after [OJoin "B"]).
Proof.
  assert (Hr : reachable (after [OJoin "B"])) by (by exists [OJoin "B"]).
  assert (Hn : clients (after [OJoin "B"]) !! "ghost" = None) by (by vm_compute).
  split_and!; [done | done |].
  destruct (SendMessage_unknown_sender_broadcasts
              {| msg_ClientID := "ghost"; Content := "hi" |} _ Hr Hn)
    as (s' & H1 & H2 & _).
  by exists s'.
Defined.

(** C1 as the specification words it fails: with only "B" registered, a post
    by the unregistered "ghost" comes back with a nil error and its text is
    in B's channel. *)
Lemma SendMessage_unknown_sender_counterexample :
  reachable (after [OJoin "B"]) ∧
  clients (after [OJoin "B"]) !! "ghost" = None ∧
  (∃ s', SendMessage {| msg_ClientID := "ghost"; Content := "hi" |} (after [OJoin "B"])
         = Some (s', {| msg_ClientID := "ghost"; Content := "message_received" |}, None) ∧
         heap (after [OJoin "B"]) !! 0 = Some {| cap := 10; buf := []; closed := false |} ∧
         heap s' !! 0 = Some {| cap := 10; buf := ["[ghost]: hi"]; closed := false |}) ∧
  ¬ (∀ s' reply err,
       SendMessage {| msg_ClientID := "ghost"; Content := "hi" |} (after [OJoin "B"])
       = Some (s', reply, err) →
       err ≠ None ∧ heap s' = heap (after [OJoin "B"])).
Proof.
  split_and!.
  - by exists [OJoin "B"].
  - by vm_compute.
  - eexists. split; [by vm_compute|]. by vm_compute.
  - intros H. edestruct H as [Herr _]; [by vm_compute|]. by apply Herr.
Qed.

(** C2: a post by a registered client [a] never changes a's own channel,
    whatever room the other channels have; and for every other registered
    client [b] whose channel holds fewer than 10 texts, it appends the one
    text ["[a]: m"] to b's channel. *)
Theorem SendMessage_reaches_other_not_self a m ca cha s :
  reachable s →
  clients s !! a = Some ca → heap s !! sendChan ca = Some cha →
  ∃ s', SendMessage {| msg_ClientID := a; Content := m |} s
        = Some (s', {| msg_ClientID := a; Content := "message_received" |}, None) ∧
        heap s' !! sendChan ca = Some cha ∧
        (∀ b cb chb,
           a ≠ b →
           clients s !! b = Some cb → heap s !! sendChan cb = Some chb →
           length (buf chb) < 10 →
           heap s' !! sendChan cb
           = Some {| cap := 10; buf := buf chb ++ ["[" +:+ a +:+ "]: " +:+ m];
                     closed := false |}).
Proof.
  intros Hwf%reachable_wf Ha Hcha.
  destruct (SendMessage_spec {| msg_ClientID := a; Content := m |} s Hwf)
    as (s' & Hrun & Hcl & _ & Hin & Hout).
  exists s'. simpl in *. split_and!; [done | |].
  - rewrite Hout; [done|].
    intros (k & c & Hk & Hne & Heq).
    apply Hne. by eapply (wf_inj s Hwf).
  - intros b cb chb Hab Hb Hchb Hroom. rewrite Hin, Hchb.
    + simpl. f_equal. rewrite (enqueue_registered s b cb chb) by done.
      by rewrite decide_True.
    + exists b, cb. split_and!; [done | congruence | done].
Qed.

Lemma SendMessage_reaches_other_not_self_witness :
  reachable (after [OJoin "A"; OJoin "B"]) ∧
  ∃ s', SendMessage {| msg_ClientID := "A"; Content := "hi" |} (after [OJoin "A"; OJoin "B"])
        = Some (s', {| msg_ClientID := "A"; Content := "message_received" |}, None) ∧
        heap s' !! 0 = Some {| cap := 10; buf := [joinMsg "B"]; closed := false |} ∧
        heap s' !! 1 = Some {| cap := 10; buf := ["[A]: hi"]; closed := false |}.
Proof.
  assert (Hr : reachable (after [OJoin "A"; OJoin "B"]))
    by (by exists [OJoin "A"; OJoin "B"]).
  split; [done|].
  destruct (SendMessage_reaches_other_not_self "A" "hi"
              {| id := "A"; sendChan := 0 |}
              {| cap := 10; buf := [joinMsg "B"]; closed := false |}
              (after [OJoin "A"; OJoin "B"]) Hr)
    as (s' & Hrun & Hown & Hoth); [by vm_compute | by vm_compute |].
  exists s'. split_and!; [done | done |].
  apply (Hoth "B" {| id := "B"; sendChan := 1 |}
           {| cap := 10; buf := []; closed := false |});
    [done | by vm_compute | by vm_compute | simpl; lia].
Defined.

(** With ten texts pending for "B", a post by "A" is dropped there and
    still does not come back to "A". *)
Example SendMessage_no_echo_when_others_full :
  (buf <$> heap (after ([OJoin "A"; OJoin "B"] ++ replicate 10 (OPost "A" "x"))) !! 1)
    = Some (replicate 10 "[A]: x") ∧
  ∃ s', SendMessage {| msg_ClientID := "A"; Content := "y" |}
          (after ([OJoin "A"; OJoin "B"] ++ replicate 10 (OPost "A" "x")))
        = Some (s', {| msg_ClientID := "A"; Content := "message_received" |}, None) ∧
        heap s' = heap (after ([OJoin "A"; OJoin "B"] ++ replicate 10 (OPost "A" "x"))) ∧
        (buf <$> heap s' !! 0) = Some [joinMsg "B"].
Proof. split; [by vm_compute|]. eexists. split; [by vm_compute|]. by vm_compute. Qed.

(** C4: every channel of a reachable state has capacity 10 and holds at most
    10 texts.  A broadcast that meets a recipient whose channel holds 10
    leaves that channel as it is, every recipient with room still has the
    text appended, and the poster gets the nil error all the same. *)
Theorem full_mailbox_drops_message sender content s :
  reachable s →
  (∀ a ch, heap s !! a = Some ch → cap ch = 10 ∧ (length (buf ch) ≤ 10)%nat) ∧
  ∃ s', SendMessage {| msg_ClientID := sender; Content := content |} s
        = Some (s', {| msg_ClientID := sender; Content := "message_received" |}, None) ∧
        ∀ k c ch, clients s !! k = Some c → k ≠ sender →
                  heap s !! sendChan c = Some ch →
          (length (buf ch) = 10 → heap s' !! sendChan c = Some ch) ∧
          (length (buf ch) < 10 →
             heap s' !! sendChan c
             = Some {| cap := 10; buf := buf ch ++ [broadcastMsg sender content];
                       closed := false |}).
Proof.
  intros Hwf%reachable_wf. split.
  - intros a ch Hch. destruct (wf_chan s Hwf _ _ Hch) as (Hcap & Hlen & _).
    rewrite Hcap in Hlen. done.
  - destruct (SendMessage_spec {| msg_ClientID := sender; Content := content |} s Hwf)
      as (s' & Hrun & Hcl & _ & Hin & Hout).
    exists s'. simpl in *. split; [done|].
    intros k c ch Hk Hne Hch.
    assert (Hr : recipient sender s (sendChan c)) by (by exists k, c).
    rewrite (Hin _ Hr), Hch. simpl.
    erewrite enqueue_registered by done.
    split; intros Hlen.
    + rewrite decide_False; [done | lia].
    + by rewrite decide_True.
Qed.

Lemma full_mailbox_drops_message_witness :
  reachable (after crowded) ∧
  (length <$> (buf <$> heap (after crowded)) = [10; 9; 0]) ∧
  ∃ s', SendMessage {| msg_ClientID := "C"; Content := "late" |} (after crowded)
        = Some (s', {| msg_ClientID := "C"; Content := "message_received" |}, None) ∧
        heap s' !! 0 = heap (after crowded) !! 0 ∧
        (buf <$> heap s' !! 1) = (λ ch, (buf ch ++ ["[C]: late"])%list) <$> heap (after crowded) !! 1.
Proof.
  assert (Hr : reachable (after crowded)) by (exists crowded; by vm_compute).
  split_and!; [done | by vm_compute |].
  destruct (full_mailbox_drops_message "C" "late" _ Hr) as (_ & s' & Hrun & Heff).
  exists s'. split; [done|]. split.
  - destruct (Heff "A" {| id := "A"; sendChan := 0 |}
                (default (make_chan 10) (heap (after crowded) !! 0)))
      as (Hfull & _); [by vm_compute | done | by vm_compute |].
    simpl in Hfull. rewrite Hfull by (by vm_compute). by vm_compute.
  - destruct (Heff "B" {| id := "B"; sendChan := 1 |}
                (default (make_chan 10) (heap (after crowded) !! 1)))
      as (_ & Hroom); [by vm_compute | done | by vm_compute |].
    simpl in Hroom. rewrite Hroom by (vm_compute; lia). by vm_compute.
Defined.

(** C10: the reply to a post does not depend on the state it is run in: in
    any two reachable states the call returns the sender's identifier with
    the content ["message_received"] and a nil error. *)
Theorem SendMessage_reply_independent_of_state msg s1 s2 :
  reachable s1 →
  reachable s2 →
  ∃ s1' s2' reply,
    SendMessage msg s1 = Some (s1', reply, None) ∧
    SendMessage msg s2 = Some (s2', reply, None) ∧
    reply = {| msg_ClientID := msg_ClientID msg; Content := "message_received" |}.
Proof.
  intros H1%reachable_wf H2%reachable_wf.
  destruct (SendMessage_spec msg s1 H1) as (s1' & Hr1 & _).
  destruct (SendMessage_spec msg s2 H2) as (s2' & Hr2 & _).
  by exists s1', s2', (ack msg).
Qed.

Lemma SendMessage_reply_independent_of_state_witness :
  reachable init ∧ reachable (after crowded) ∧
  ∃ s1' s2' reply,
    SendMessage {| msg_ClientID := "ghost"; Content := "hi" |} init
      = Some (s1', reply, None) ∧
    SendMessage {| msg_ClientID := "ghost"; Content := "hi" |} (after crowded)
      = Some (s2', reply, None) ∧
    reply = {| msg_ClientID := "ghost"; Content := "message_received" |}.
Proof.
  assert (H1 : reachable init) by (by exists []).
  assert (H2 : reachable (after crowded)) by (exists crowded; by vm_compute).
  split_and!; [done | done |].
  apply (SendMessage_reply_independent_of_state
           {| msg_ClientID := "ghost"; Content := "hi" |} _ _ H1 H2).
Defined.

(** ** Leaving *)

(** C3, as the code has it: only the removal is guarded by the presence
    test.  A second [Leave] under the same identifier returns a nil error and
    leaves the map as the first call left it, but it broadcasts the leave
    notice once more: the channel of every remaining client gets one more
    copy where there is room, and no other channel changes. *)
Theorem Leave_twice_repeats_notice k s :
  reachable s →
  ∃ s1 s2,
    Leave {| req_ClientID := k |} s = Some (s1, {| res_ClientID := k |}, None) ∧
    Leave {| req_ClientID := k |} s1 = Some (s2, {| res_ClientID := k |}, None) ∧
    clients s1 = delete k (clients s) ∧
    clients s2 = clients s1 ∧
    (∀ k' c ch, clients s1 !! k' = Some c → heap s1 !! sendChan c = Some ch →
       heap s2 !! sendChan c
       = Some (if decide (length (buf ch) < 10)
               then {| cap := 10; buf := buf ch ++ [leaveMsg k]; closed := false |}
               else ch)) ∧
    (∀ a, (∀ k' c, clients s1 !! k' = Some c → sendChan c ≠ a) →
       heap s2 !! a = heap s1 !! a).
Proof.
  intros Hwf%reachable_wf.
  destruct (Leave_spec k s Hwf) as (s0 & s1 & Hrm & Hwf0 & Hrun1 & Hdel & Hcl1 & _).
  assert (Hwf1 : wf s1).
  { apply (run_wf (OLeave k) s s1 Hwf). simpl. by rewrite Hrun1. }
  assert (Hgone : clients s1 !! k = None).
  { rewrite Hcl1, Hdel. apply lookup_delete_eq. }
  destruct (Leave_spec k s1 Hwf1) as (s1' & s2 & Hrm2 & _ & Hrun2 & _ & Hcl2 & Hin & Hout).
  rewrite leave_remove_absent in Hrm2 by done. injection Hrm2 as <-.
  exists s1, s2. split_and!; [done | done | congruence | done | |].
  - intros k' c ch Hk' Hch. rewrite Hin, Hch.
    + simpl. f_equal. by eapply enqueue_registered.
    + exists k', c. split_and!; [done | congruence | done].
  - intros a Ha. apply Hout. intros (k' & c & Hk' & _ & Heq). by eapply Ha.
Qed.

Lemma Leave_twice_repeats_notice_witness :
  reachable (after [OJoin "A"; OJoin "B"]) ∧
  ∃ s1 s2,
    Leave {| req_ClientID := "B" |} (after [OJoin "A"; OJoin "B"])
      = Some (s1, {| res_ClientID := "B" |}, None) ∧
    Leave {| req_ClientID := "B" |} s1 = Some (s2, {| res_ClientID := "B" |}, None) ∧
    clients s2 = clients s1.
Proof.
  assert (Hr : reachable (after [OJoin "A"; OJoin "B"]))
    by (by exists [OJoin "A"; OJoin "B"]).
  split; [done|].
  destruct (Leave_twice_repeats_notice "B" _ Hr) as (s1 & s2 & H1 & H2 & _ & H3 & _).
  by exists s1, s2.
Defined.

(** C3 as the specification words it fails: after "A" and "B" joined and "B"
    left, a second [Leave] of "B" puts a second leave notice into A's
    channel. *)
Lemma Leave_twice_counterexample :
  run (OLeave "B") (after [OJoin "A"; OJoin "B"])
    = Some (after [OJoin "A"; OJoin "B"; OLeave "B"]) ∧
  (∃ s2, Leave {| req_ClientID := "B" |} (after [OJoin "A"; OJoin "B"; OLeave "B"])
         = Some (s2, {| res_ClientID := "B" |}, None) ∧
         clients (after [OJoin "A"; OJoin "B"; OLeave "B"]) !! "A"
           = Some {| id := "A"; sendChan := 0 |} ∧
         (buf <$> heap (after [OJoin "A"; OJoin "B"; OLeave "B"]) !! 0)
           = Some [joinMsg "B"; leaveMsg "B"] ∧
         (buf <$> heap s2 !! 0) = Some [joinMsg "B"; leaveMsg "B"; leaveMsg "B"]) ∧
  ¬ (∀ s2 res err,
       Leave {| req_ClientID := "B" |} (after [OJoin "A"; OJoin "B"; OLeave "B"])
       = Some (s2, res, err) →
       err = None ∧
       clients s2 = clients (after [OJoin "A"; OJoin "B"; OLeave "B"]) ∧
       heap s2 = heap (after [OJoin "A"; OJoin "B"; OLeave "B"])).
Proof.
  split_and!.
  - by vm_compute.
  - eexists. split; [by vm_compute|]. split_and!; by vm_compute.
  - intros H. edestruct H as (_ & _ & Hheap); [by vm_compute|].
    by vm_compute in Hheap.
Qed.

(** ** Joining *)

(** C5: a [Join] under an identifier that is already a key stores a new
    client whose channel is newly made (capacity 10, empty, open) at a new
    address; the channel the key had before keeps its contents, stays open,
    and is no longer the channel of any key. *)
Theorem Join_again_keeps_old_mailbox k old s :
  reachable s →
  clients s !! k = Some old →
  ∃ s', Join {| req_ClientID := k |} s = Some (s', {| res_ClientID := k |}, None) ∧
        clients s' !! k = Some {| id := k; sendChan := length (heap s) |} ∧
        sendChan old < length (heap s) ∧
        heap s' !! length (heap s) = Some {| cap := 10; buf := []; closed := false |} ∧
        heap s' !! sendChan old = heap s !! sendChan old ∧
        (∃ ch, heap s' !! sendChan old = Some ch ∧ closed ch = false) ∧
        (∀ k' c, clients s' !! k' = Some c → sendChan c ≠ sendChan old).
Proof.
  intros Hwf%reachable_wf Hold.
  destruct (Join_spec k s Hwf) as (s' & Hrun & Hcl & Hnew & _ & Hout).
  pose proof (registered_lt s k old Hwf Hold) as Hlt.
  assert (Hkeep : heap s' !! sendChan old = heap s !! sendChan old).
  { apply Hout; [done|]. intros (k' & c & Hk' & Hne & Heq).
    apply Hne. by eapply (wf_inj s Hwf). }
  exists s'. split_and!; [done | | done | done | done | |].
  - rewrite Hcl. apply lookup_insert_eq.
  - rewrite Hkeep. by eapply wf_open.
  - intros k' c. rewrite Hcl, lookup_insert. case_decide as E.
    + intros [= <-]. simpl. lia.
    + intros Hk' Heq. apply E. symmetry. by eapply (wf_inj s Hwf).
Qed.

Lemma Join_again_keeps_old_mailbox_witness :
  reachable (after [OJoin "A"; OJoin "B"; OPost "B" "hi"]) ∧
  clients (after [OJoin "A"; OJoin "B"; OPost "B" "hi"]) !! "A"
    = Some {| id := "A"; sendChan := 0 |} ∧
  ∃ s', Join {| req_ClientID := "A" |} (after [OJoin "A"; OJoin "B"; OPost "B" "hi"])
        = Some (s', {| res_ClientID := "A" |}, None) ∧
        clients s' !! "A" = Some {| id := "A"; sendChan := 2 |} ∧
        heap s' !! 2 = Some {| cap := 10; buf := []; closed := false |} ∧
        heap s' !! 0 = Some {| cap := 10; buf := [joinMsg "B"; "[B]: hi"]; closed := false |}.
Proof.
  assert (Hr : reachable (after [OJoin "A"; OJoin "B"; OPost "B" "hi"]))
    by (by exists [OJoin "A"; OJoin "B"; OPost "B" "hi"]).
  assert (Hk : clients (after [OJoin "A"; OJoin "B"; OPost "B" "hi"]) !! "A"
               = Some {| id := "A"; sendChan := 0 |}) by (by vm_compute).
  split_and!; [done | done |].
  destruct (Join_again_keeps_old_mailbox "A" _ _ Hr Hk)
    as (s' & H1 & H2 & _ & H3 & H4 & _).
  exists s'. split_and!; [done | done | done |].
  simpl in H4. by rewrite H4.
Defined.

(** C9: [Join] has no failing path.  In every reachable state and for every
    identifier (so for every non-empty one, and whether or not the
    identifier is already a key) it returns the identifier with a nil error
    and leaves the identifier registered with a newly made channel. *)
Theorem Join_succeeds_and_registers k s :
  reachable s →
  ∃ s' c, Join {| req_ClientID := k |} s = Some (s', {| res_ClientID := k |}, None) ∧
          clients s' !! k = Some c ∧
          heap s' !! sendChan c = Some {| cap := 10; buf := []; closed := false |} ∧
          dom (clients s') = {[k]} ∪ dom (clients s).
Proof.
  intros Hwf%reachable_wf.
  destruct (Join_spec k s Hwf) as (s' & Hrun & Hcl & Hnew & _).
  exists s', {| id := k; sendChan := length (heap s) |}.
  split_and!; [done | | done |].
  - rewrite Hcl. apply lookup_insert_eq.
  - rewrite Hcl. apply dom_insert_L.
Qed.

Lemma Join_succeeds_and_registers_witness :
  reachable (after [OJoin "A"]) ∧
  ∃ s' c, Join {| req_ClientID := "A" |} (after [OJoin "A"])
          = Some (s', {| res_ClientID := "A" |}, None) ∧
          clients s' !! "A" = Some c ∧
          heap s' !! sendChan c = Some {| cap := 10; buf := []; closed := false |} ∧
          dom (clients s') = {["A"]} ∪ dom (clients (after [OJoin "A"])).
Proof.
  assert (Hr : reachable (after [OJoin "A"])) by (by exists [OJoin "A"]).
  split; [done|]. apply (Join_succeeds_and_registers "A" _ Hr).
Defined.

(** The empty identifier is accepted like any other. *)
Example Join_empty_identifier :
  ∃ s', Join {| req_ClientID := "" |} init = Some (s', {| res_ClientID := "" |}, None) ∧
        clients s' !! "" = Some {| id := ""; sendChan := 0 |}.
Proof. eexists. split; by vm_compute. Qed.

(** ** Polling *)

Lemma state_eta s : {| clients := clients s; nextID := nextID s; heap := heap s |} = s.
Proof. by destruct s. Qed.

(** C7: for an identifier that is not a key, [GetMessages] returns the
    not-found error and writes no message.  For a registered identifier the
    channel is open; if texts are pending, the call returns exactly the
    oldest one with a nil error and removes it from that channel, all else
    unchanged; if none is pending the call waits. *)
Theorem GetMessages_one_text_per_call k s :
  reachable s →
  (clients s !! k = None →
     GetMessages k s
     = Some (Returned s None (Some ("client " +:+ k +:+ " not found")))) ∧
  (∀ c, clients s !! k = Some c →
     ∃ ch, heap s !! sendChan c = Some ch ∧ closed ch = false ∧
           GetMessages k s
           = Some (match buf ch with
                   | [] => Waiting
                   | m :: rest =>
                       Returned
                         {| clients := clients s; nextID := nextID s;
                            heap := <[sendChan c :=
                                        {| cap := cap ch; buf := rest; closed := false |}]>
                                      (heap s) |}
                         (Some [m]) None
                   end)).
Proof.
  intros Hwf%reachable_wf. unfold GetMessages, GetMessages_lookup. split.
  - by intros ->.
  - intros c Hk. rewrite Hk.
    destruct (wf_open s Hwf _ _ Hk) as (ch & Hch & Hop).
    exists ch. split_and!; [done | done |].
    unfold GetMessages_recv. rewrite Hch. simpl. unfold chan_recv.
    destruct (buf ch) as [|m rest]; by rewrite Hop.
Qed.

Lemma GetMessages_one_text_per_call_witness :
  reachable (after [OJoin "A"; OJoin "B"; OPost "B" "hi"]) ∧
  clients (after [OJoin "A"; OJoin "B"; OPost "B" "hi"]) !! "A"
    = Some {| id := "A"; sendChan := 0 |} ∧
  clients (after [OJoin "A"; OJoin "B"; OPost "B" "hi"]) !! "C" = None ∧
  (∃ ch, heap (after [OJoin "A"; OJoin "B"; OPost "B" "hi"]) !! 0 = Some ch ∧
         closed ch = false ∧
         GetMessages "A" (after [OJoin "A"; OJoin "B"; OPost "B" "hi"])
         = Some (match buf ch with
                 | [] => Waiting
                 | m :: rest =>
                     Returned
                       {| clients := clients (after [OJoin "A"; OJoin "B"; OPost "B" "hi"]);
                          nextID := nextID (after [OJoin "A"; OJoin "B"; OPost "B" "hi"]);
                          heap := <[0 := {| cap := cap ch; buf := rest; closed := false |}]>
                                    (heap (after [OJoin "A"; OJoin "B"; OPost "B" "hi"])) |}
                       (Some [m]) None
                 end)) ∧
  GetMessages "C" (after [OJoin "A"; OJoin "B"; OPost "B" "hi"])
  = Some (Returned (after [OJoin "A"; OJoin "B"; OPost "B" "hi"]) None
            (Some "client C not found")).
Proof.
  assert (Hr : reachable (after [OJoin "A"; OJoin "B"; OPost "B" "hi"]))
    by (by exists [OJoin "A"; OJoin "B"; OPost "B" "hi"]).
  assert (HkA : clients (after [OJoin "A"; OJoin "B"; OPost "B" "hi"]) !! "A"
                = Some {| id := "A"; sendChan := 0 |}) by (by vm_compute).
  assert (HkC : clients (after [OJoin "A"; OJoin "B"; OPost "B" "hi"]) !! "C" = None)
    by (by vm_compute).
  destruct (GetMessages_one_text_per_call "A" _ Hr) as (_ & HA).
  destruct (GetMessages_one_text_per_call "C" _ Hr) as (HC & _).
  split_and!; [done | done | done | exact (HA _ HkA) | exact (HC HkC)].
Defined.

(** What that call returns, written out. *)
Example GetMessages_oldest_first :
  ∃ s', GetMessages "A" (after [OJoin "A"; OJoin "B"; OPost "B" "hi"])
        = Some (Returned s' (Some [joinMsg "B"]) None) ∧
        (buf <$> heap s' !! 0) = Some ["[B]: hi"] ∧
        GetMessages "B" (after [OJoin "A"; OJoin "B"; OPost "B" "hi"]) = Some Waiting.
Proof. eexists. split_and!; by vm_compute. Qed.

(** C8, as the code has it: the receive in [GetMessages] does not ask for the
    [ok] flag.  On a closed channel with nothing pending it returns at once,
    and the call answers like a delivery, nil error and one text, the text
    being the empty string; the state does not change.  Every text pending
    in a channel of a reachable state is non-empty, so the empty text is the
    only mark of a closed channel. *)
Theorem GetMessages_closed_mailbox_empty_text c ch s :
  reachable s →
  heap s !! sendChan c = Some ch →
  closed ch = true →
  buf ch = [] →
  GetMessages_recv c s = Some (Returned s (Some [""]) None) ∧
  (∀ a ch' m, heap s !! a = Some ch' → m ∈ buf ch' → m ≠ "").
Proof.
  intros Hwf%reachable_wf Hch Hcl Hbuf. split.
  - unfold GetMessages_recv. rewrite Hch. simpl.
    unfold chan_recv. rewrite Hbuf, Hcl.
    rewrite list_insert_id by done. by rewrite state_eta.
  - intros a ch' m Ha Hm. destruct (wf_chan s Hwf _ _ Ha) as (_ & _ & Hall).
    rewrite Forall_forall in Hall. by apply Hall.
Qed.

Lemma GetMessages_closed_mailbox_empty_text_witness :
  reachable (after [OJoin "A"; OLeave "A"]) ∧
  heap (after [OJoin "A"; OLeave "A"]) !! 0
    = Some {| cap := 10; buf := []; closed := true |} ∧
  GetMessages_recv {| id := "A"; sendChan := 0 |} (after [OJoin "A"; OLeave "A"])
    = Some (Returned (after [OJoin "A"; OLeave "A"]) (Some [""]) None).
Proof.
  assert (Hr : reachable (after [OJoin "A"; OLeave "A"]))
    by (by exists [OJoin "A"; OLeave "A"]).
  assert (Hh : heap (after [OJoin "A"; OLeave "A"]) !! 0
               = Some {| cap := 10; buf := []; closed := true |}) by (by vm_compute).
  split_and!; [done | done |].
  apply (GetMessages_closed_mailbox_empty_text {| id := "A"; sendChan := 0 |}
           {| cap := 10; buf := []; closed := true |} _ Hr Hh); done.
Defined.

(** C8 as the specification words it fails: a [GetMessages] call fetches the
    client of "A" while "A" is registered; "A" leaves, which closes the
    channel; the receive then returns a nil error with the one text [""],
    the very answer it gives when the text [""] is delivered from an open
    channel. *)
Lemma GetMessages_closed_mailbox_counterexample :
  GetMessages_lookup "A" (after [OJoin "A"]) = Some {| id := "A"; sendChan := 0 |} ∧
  run (OLeave "A") (after [OJoin "A"]) = Some (after [OJoin "A"; OLeave "A"]) ∧
  heap (after [OJoin "A"; OLeave "A"]) !! 0
    = Some {| cap := 10; buf := []; closed := true |} ∧
  GetMessages_recv {| id := "A"; sendChan := 0 |} (after [OJoin "A"; OLeave "A"])
    = Some (Returned (after [OJoin "A"; OLeave "A"]) (Some [""]) None) ∧
  GetMessages_recv {| id := "A"; sendChan := 0 |}
      {| clients := ∅; nextID := 1;
         heap := [{| cap := 10; buf := [""]; closed := false |}] |}
    = Some (Returned {| clients := ∅; nextID := 1;
                        heap := [{| cap := 10; buf := []; closed := false |}] |}
                     (Some [""]) None) ∧
  ¬ (∀ r, GetMessages_recv {| id := "A"; sendChan := 0 |} (after [OJoin "A"; OLeave "A"])
          = Some r →
          ∀ s' m, r ≠ Returned s' (Some [m]) None).
Proof.
  split_and!; try by vm_compute.
  intros H. eapply H; by vm_compute.
Qed.

(** ** The registry and the joined participants *)

Lemma run_dom o s s' :
  wf s → run o s = Some s' → dom (clients s') = joined_step o (dom (clients s)).
Proof.
  intros Hwf. destruct o as [k|k m|k|k|c]; simpl.
  - destruct (Join_spec k s Hwf) as (s2 & -> & Hcl & _). simpl.
    intros [= <-]. rewrite Hcl. apply dom_insert_L.
  - destruct (SendMessage_spec {| msg_ClientID := k; Content := m |} s Hwf)
      as (s2 & -> & Hcl & _). simpl.
    intros [= <-]. by rewrite Hcl.
  - destruct (Leave_spec k s Hwf) as (s1 & s2 & _ & _ & -> & Hdel & Hcl & _). simpl.
    intros [= <-]. rewrite Hcl, Hdel. apply dom_delete_L.
  - unfold GetMessages, GetMessages_lookup.
    destruct (clients s !! k) as [c|]; [|by intros [= <-]].
    unfold GetMessages_recv. destruct (heap s !! sendChan c) as [ch|]; [|done].
    simpl. destruct (chan_recv ch); by intros [= <-].
  - unfold GetMessages_recv. destruct (heap s !! sendChan c) as [ch|]; [|done].
    simpl. destruct (chan_recv ch); by intros [= <-].
Qed.

Lemma run_all_dom ops : ∀ s s' J,
  wf s → dom (clients s) = J → run_all ops s = Some s' →
  dom (clients s') = joined_after ops J.
Proof.
  induction ops as [|o ops IH]; intros s s' J Hwf HJ; simpl.
  - by intros [= <-].
  - destruct (run o s) as [s1|] eqn:Hr; simpl; [|done].
    apply IH; [by eapply run_wf|]. rewrite <- HJ. by apply run_dom.
Qed.

(** No RPC panics in a well-formed state. *)
Lemma run_rpc_total o s : wf s → is_rpc o → is_Some (run o s).
Proof.
  intros Hwf. destruct o as [k|k m|k|k|c]; simpl; [| | | |done]; intros _.
  - destruct (Join_spec k s Hwf) as (s2 & -> & _). by eexists.
  - destruct (SendMessage_spec {| msg_ClientID := k; Content := m |} s Hwf)
      as (s2 & -> & _). by eexists.
  - destruct (Leave_spec k s Hwf) as (s1 & s2 & _ & _ & -> & _). by eexists.
  - unfold GetMessages, GetMessages_lookup.
    destruct (clients s !! k) as [c|] eqn:Hk; [|by eexists].
    destruct (wf_open s Hwf _ _ Hk) as (ch & Hch & _).
    unfold GetMessages_recv. rewrite Hch. simpl.
    destruct (chan_recv ch); by eexists.
Qed.

Lemma run_all_rpc_total ops : ∀ s, wf s → Forall is_rpc ops → is_Some (run_all ops s).
Proof.
  induction ops as [|o ops IH]; intros s Hwf Hall; simpl; [by eexists|].
  apply Forall_cons in Hall as [Ho Hall].
  destruct (run_rpc_total o s Hwf Ho) as [s1 Hs1]. rewrite Hs1. simpl.
  apply IH; [by eapply run_wf | done].
Qed.

(** C6: in the state reached by any sequence of operations, the keys of the
    map are exactly the participants that joined and did not leave since;
    each key has one client record, which carries the key and owns an open
    channel of its own; and one more operation changes the keys only as a
    [Join] (adding its identifier) or a [Leave] (removing its identifier). *)
Theorem registry_keys_are_joined ops s :
  run_all ops init = Some s →
  dom (clients s) = joined_after ops ∅ ∧
  (∀ k, k ∈ joined_after ops ∅ ↔
        ∃ c ch, clients s !! k = Some c ∧ id c = k ∧
                heap s !! sendChan c = Some ch ∧ closed ch = false) ∧
  (∀ k1 k2 c1 c2, clients s !! k1 = Some c1 → clients s !! k2 = Some c2 →
                  sendChan c1 = sendChan c2 → k1 = k2) ∧
  (∀ o s', run o s = Some s' →
           dom (clients s') = joined_step o (dom (clients s))).
Proof.
  intros Hrun.
  assert (Hwf : wf s) by (apply reachable_wf; by exists ops).
  assert (Hdom : dom (clients s) = joined_after ops ∅).
  { eapply run_all_dom; [apply init_wf | | done]. simpl. apply dom_empty_L. }
  split_and!; [done | | by apply wf_inj | intros o s'; by apply run_dom].
  intros k. rewrite <- Hdom, elem_of_dom. split.
  - intros [c Hk]. destruct (wf_open s Hwf _ _ Hk) as (ch & Hch & Hop).
    exists c, ch. split_and!; [done | by eapply wf_id | done | done].
  - intros (c & _ & Hk & _). by exists c.
Qed.

Lemma registry_keys_are_joined_witness :
  run_all [OJoin "A"; OJoin "B"; OPost "A" "hi"; OLeave "A"; OPollOne "B"] init
    = Some (after [OJoin "A"; OJoin "B"; OPost "A" "hi"; OLeave "A"; OPollOne "B"]) ∧
  dom (clients (after [OJoin "A"; OJoin "B"; OPost "A" "hi"; OLeave "A"; OPollOne "B"]))
    = joined_after [OJoin "A"; OJoin "B"; OPost "A" "hi"; OLeave "A"; OPollOne "B"] ∅ ∧
  joined_after [OJoin "A"; OJoin "B"; OPost "A" "hi"; OLeave "A"; OPollOne "B"] ∅
    = {["B"]}.
Proof.
  assert (Hrun : run_all [OJoin "A"; OJoin "B"; OPost "A" "hi"; OLeave "A"; OPollOne "B"] init
                 = Some (after [OJoin "A"; OJoin "B"; OPost "A" "hi"; OLeave "A"; OPollOne "B"]))
    by (by vm_compute).
  split_and!; [done | | ].
  - destruct (registry_keys_are_joined _ _ Hrun) as (Hdom & _). exact Hdom.
  - by vm_compute.
Defined.

(** ** More on the broadcast loop *)

Lemma wf_NoDup_chans s :
  wf s → NoDup ((sendChan ∘ snd) <$> map_to_list (clients s)).
Proof.
  intros Hwf. apply NoDup_fmap_2_strong; [|apply NoDup_map_to_list].
  intros [k1 c1] [k2 c2] H1%elem_of_map_to_list H2%elem_of_map_to_list Heq.
  simpl in Heq. pose proof (wf_inj s Hwf _ _ _ _ H1 H2 Heq) as ->.
  congruence.
Qed.

Lemma wf_all_open s : wf s → all_open (map_to_list (clients s)) (heap s).
Proof. intros Hwf k c Hkc%elem_of_map_to_list. by eapply wf_open. Qed.

(** X1: Go visits the entries of the map in an order of its choosing; the
    outcome of [broadcastToOthers] is the same for every order.  Running the
    loop over any rearrangement of the entries of a reachable state gives the
    channels that [broadcastToOthers] gives. *)
Theorem broadcastToOthers_any_order sender text l s :
  reachable s →
  l ≡ₚ map_to_list (clients s) →
  (h ← broadcast_over sender text l (heap s);
   Some {| clients := clients s; nextID := nextID s; heap := h |})
  = broadcastToOthers sender text s.
Proof.
  intros Hwf%reachable_wf Hp. unfold broadcastToOthers.
  rewrite (broadcast_over_perm sender text (map_to_list (clients s)) l (heap s));
    [done | done | by apply wf_NoDup_chans | by apply wf_all_open].
Qed.

Lemma broadcastToOthers_any_order_witness :
  reachable (after crowded) ∧
  reverse (map_to_list (clients (after crowded))) ≡ₚ map_to_list (clients (after crowded)) ∧
  (h ← broadcast_over "B" "[B]: hi" (reverse (map_to_list (clients (after crowded))))
         (heap (after crowded));
   Some {| clients := clients (after crowded); nextID := nextID (after crowded);
           heap := h |})
  = broadcastToOthers "B" "[B]: hi" (after crowded).
Proof.
  assert (Hr : reachable (after crowded)) by (exists crowded; by vm_compute).
  split_and!; [done | apply reverse_Permutation |].
  apply (broadcastToOthers_any_order "B" "[B]: hi" _ _ Hr), reverse_Permutation.
Defined.

(** ** No panic *)

(** X2: the server has two ways to panic, a send on a closed channel in
    [broadcastToOthers] and a second [close] in [Leave].  Neither happens:
    every sequence of [Join], [SendMessage], [Leave] and [GetMessages] calls
    runs from the initial state to a state. *)
Theorem rpc_calls_never_panic ops :
  Forall is_rpc ops → is_Some (run_all ops init).
Proof. intros Hall. apply run_all_rpc_total; [apply init_wf | done]. Qed.

Lemma rpc_calls_never_panic_witness :
  Forall is_rpc [OJoin "A"; OLeave "A"; OLeave "A"; OPost "A" "hi"; OJoin "A"; OPollOne "B"] ∧
  is_Some (run_all [OJoin "A"; OLeave "A"; OLeave "A"; OPost "A" "hi"; OJoin "A"; OPollOne "B"]
             init).
Proof.
  assert (H : Forall is_rpc
                [OJoin "A"; OLeave "A"; OLeave "A"; OPost "A" "hi"; OJoin "A"; OPollOne "B"])
    by (repeat constructor).
  split; [done|]. apply (rpc_calls_never_panic _ H).
Defined.

(** ** The field nextID *)

Lemma broadcastToOthers_nextID sender text s s' :
  broadcastToOthers sender text s = Some s' → nextID s' = nextID s.
Proof.
  unfold broadcastToOthers.
  destruct (broadcast_over sender text _ _); simpl; [|done]. by intros [= <-].
Qed.

Lemma GetMessages_recv_nextID c s r :
  GetMessages_recv c s = Some r → nextID (poll_state s r) = nextID s.
Proof.
  unfold GetMessages_recv. destruct (heap s !! sendChan c) as [ch|]; simpl; [|done].
  destruct (chan_recv ch); by intros [= <-].
Qed.

Lemma run_nextID o s s' : run o s = Some s' → nextID s' = nextID s.
Proof.
  destruct o as [k|k m|k|k|c]; simpl.
  - unfold Join.
    destruct (broadcastToOthers _ _ _) as [s2|] eqn:Hb; simpl; [|done].
    intros [= <-]. by apply broadcastToOthers_nextID in Hb.
  - unfold SendMessage.
    destruct (broadcastToOthers _ _ _) as [s2|] eqn:Hb; simpl; [|done].
    intros [= <-]. by apply broadcastToOthers_nextID in Hb.
  - unfold Leave. simpl.
    destruct (leave_remove k s) as [s1|] eqn:Hl; simpl; [|done].
    destruct (broadcastToOthers _ _ _) as [s2|] eqn:Hb; simpl; [|done].
    intros [= <-]. apply broadcastToOthers_nextID in Hb. rewrite Hb.
    unfold leave_remove in Hl. destruct (clients s !! k) as [c|]; [|by injection Hl as <-].
    destruct (heap s !! sendChan c) as [ch|]; simpl in Hl; [|done].
    destruct (chan_close ch); simpl in Hl; [|done]. by injection Hl as <-.
  - unfold GetMessages, GetMessages_lookup.
    destruct (clients s !! k) as [c|]; [|by intros [= <-]].
    destruct (GetMessages_recv c s) as [r|] eqn:Hr; simpl; [|done].
    intros [= <-]. by apply (GetMessages_recv_nextID c).
  - destruct (GetMessages_recv c s) as [r|] eqn:Hr; simpl; [|done].
    intros [= <-]. by apply (GetMessages_recv_nextID c).
Qed.

(** X3: no method of the server assigns [nextID]; it is 1, the value [main]
    gave it, in every state any sequence of operations reaches. *)
Theorem nextID_stays_one ops s :
  run_all ops init = Some s → nextID s = 1%Z.
Proof.
  assert (Hgen : ∀ s0, run_all ops s0 = Some s → nextID s = nextID s0).
  { induction ops as [|o ops IH]; intros s0; simpl.
    - by intros [= <-].
    - destruct (run o s0) as [s1|] eqn:Hr; simpl; [|done].
      intros H. rewrite (IH _ H). by eapply run_nextID. }
  intros H. by rewrite (Hgen _ H).
Qed.

Lemma nextID_stays_one_witness :
  run_all crowded init = Some (after crowded) ∧ nextID (after crowded) = 1%Z.
Proof.
  assert (H : run_all crowded init = Some (after crowded)) by (by vm_compute).
  split; [done|]. apply (nextID_stays_one _ _ H).
Defined.

(** ** Posting and polling together *)

Lemma chan_eta s k c ch :
  wf s → clients s !! k = Some c → heap s !! sendChan c = Some ch →
  ch = {| cap := 10; buf := buf ch; closed := false |}.
Proof.
  intros Hwf Hk Hch. destruct (wf_open s Hwf _ _ Hk) as (ch' & Hch' & Hop).
  assert (ch' = ch) as -> by congruence.
  destruct (wf_chan s Hwf _ _ Hch) as (Hcap & _).
  destruct ch; simpl in *; by subst.
Qed.

Lemma run_all_app ops1 ops2 s :
  run_all (ops1 ++ ops2) s = s1 ← run_all ops1 s; run_all ops2 s1.
Proof.
  revert s. induction ops1 as [|o ops1 IH]; intros s; simpl; [done|].
  destruct (run o s); simpl; [apply IH | done].
Qed.

Lemma reachable_run_all ops s s' :
  reachable s → run_all ops s = Some s' → reachable s'.
Proof.
  intros [ops0 H0] H. exists (ops0 ++ ops)%list. rewrite run_all_app, H0. done.
Qed.

(** X4: a text posted by [a] while b's channel is empty is what the next
    [GetMessages] of [b] returns, alone and with a nil error, and b's channel
    is empty again afterwards.  The poster need not be registered. *)
Theorem post_then_poll a b m cb chb s :
  reachable s →
  a ≠ b →
  clients s !! b = Some cb →
  heap s !! sendChan cb = Some chb →
  buf chb = [] →
  ∃ s1 s2,
    SendMessage {| msg_ClientID := a; Content := m |} s
      = Some (s1, {| msg_ClientID := a; Content := "message_received" |}, None) ∧
    GetMessages b s1 = Some (Returned s2 (Some ["[" +:+ a +:+ "]: " +:+ m]) None) ∧
    clients s2 = clients s ∧
    heap s2 !! sendChan cb = Some chb.
Proof.
  intros Hwf%reachable_wf Hab Hb Hchb Hempty.
  destruct (SendMessage_spec {| msg_ClientID := a; Content := m |} s Hwf)
    as (s1 & Hrun & Hcl & Hlen & Hin & _). simpl in *.
  assert (Hr : recipient a s (sendChan cb)) by (exists b, cb; by split_and!).
  pose proof (Hin _ Hr) as H1. rewrite Hchb in H1. simpl in H1.
  rewrite (enqueue_registered s b cb chb) in H1 by done.
  rewrite Hempty in H1. simpl in H1.
  eexists s1, _. split; [done|].
  unfold GetMessages, GetMessages_lookup, GetMessages_recv.
  rewrite Hcl, Hb, H1. simpl. split_and!; [done | done |].
  simpl. rewrite list_lookup_insert_eq by (rewrite Hlen; by eapply lookup_lt_Some).
  f_equal. rewrite (chan_eta s b cb chb) by done. by rewrite Hempty.
Qed.

Lemma post_then_poll_witness :
  reachable (after [OJoin "B"]) ∧
  ∃ s1 s2,
    SendMessage {| msg_ClientID := "A"; Content := "hi" |} (after [OJoin "B"])
      = Some (s1, {| msg_ClientID := "A"; Content := "message_received" |}, None) ∧
    GetMessages "B" s1 = Some (Returned s2 (Some ["[A]: hi"]) None) ∧
    clients s2 = clients (after [OJoin "B"]) ∧
    heap s2 !! 0 = Some {| cap := 10; buf := []; closed := false |}.
Proof.
  assert (Hr : reachable (after [OJoin "B"])) by (by exists [OJoin "B"]).
  split; [done|].
  apply (post_then_poll "A" "B" "hi" {| id := "B"; sendChan := 0 |}
           {| cap := 10; buf := []; closed := false |} _ Hr);
    [done | by vm_compute | by vm_compute | done].
Defined.

Lemma posts_fill_channel a b cb ms : ∀ s chb,
  wf s → a ≠ b → clients s !! b = Some cb → heap s !! sendChan cb = Some chb →
  ∃ s', run_all (OPost a <$> ms) s = Some s' ∧
        clients s' = clients s ∧
        length (heap s') = length (heap s) ∧
        heap s' !! sendChan cb
        = Some {| cap := 10;
                  buf := take 10 (buf chb ++ (broadcastMsg a <$> ms));
                  closed := false |}.
Proof.
  induction ms as [|m ms IH]; intros s chb Hwf Hab Hb Hchb.
  - exists s. split_and!; [done | done | done |]. rewrite Hchb. f_equal.
    destruct (wf_chan s Hwf _ _ Hchb) as (Hcap & Hlen & _).
    simpl. rewrite app_nil_r, take_ge by lia.
    by eapply chan_eta.
  - destruct (SendMessage_spec {| msg_ClientID := a; Content := m |} s Hwf)
      as (s1 & Hrun & Hcl & Hlen & Hin & _). simpl in *.
    assert (Hwf1 : wf s1).
    { apply (run_wf (OPost a m) s s1 Hwf). simpl. by rewrite Hrun. }
    assert (Hr : recipient a s (sendChan cb)) by (exists b, cb; by split_and!).
    pose proof (Hin _ Hr) as H1. rewrite Hchb in H1. simpl in H1.
    rewrite (enqueue_registered s b cb chb) in H1 by done.
    destruct (wf_chan s Hwf _ _ Hchb) as (Hcap & Hle & _). rewrite Hcap in Hle.
    destruct (IH s1 _ Hwf1 Hab ltac:(by rewrite Hcl) H1) as (s' & Hrun' & Hcl' & Hlen' & Hh).
    exists s'. simpl. rewrite Hrun. simpl.
    split_and!; [done | congruence | congruence |].
    rewrite Hh. do 2 f_equal.
    destruct (decide (length (buf chb) < 10)) as [Hlt|Hge]; simpl.
    + by rewrite <- app_assoc.
    + rewrite !take_app_le by lia. done.
Qed.

(** X5: a run of posts by [a] leaves in the channel of another registered
    client [b] the first 10 of what was pending followed by the posted texts
    in the order posted: texts arrive in order, and once 10 are pending the
    later ones are dropped while the earlier ones stay. *)
Theorem posts_keep_first_ten a b cb chb ms s :
  reachable s →
  a ≠ b →
  clients s !! b = Some cb →
  heap s !! sendChan cb = Some chb →
  ∃ s', run_all (OPost a <$> ms) s = Some s' ∧
        clients s' = clients s ∧
        heap s' !! sendChan cb
        = Some {| cap := 10;
                  buf := take 10 (buf chb ++ ((λ m, "[" +:+ a +:+ "]: " +:+ m) <$> ms));
                  closed := false |}.
Proof.
  intros Hwf%reachable_wf Hab Hb Hchb.
  destruct (posts_fill_channel a b cb ms s chb Hwf Hab Hb Hchb)
    as (s' & Hrun & Hcl & _ & Hh).
  by exists s'.
Qed.

Lemma posts_keep_first_ten_witness :
  reachable (after [OJoin "A"; OJoin "B"]) ∧
  ∃ s', run_all (OPost "B" <$> ["1"; "2"; "3"; "4"; "5"; "6"; "7"; "8"; "9"; "10"; "11"])
          (after [OJoin "A"; OJoin "B"]) = Some s' ∧
        clients s' = clients (after [OJoin "A"; OJoin "B"]) ∧
        heap s' !! 0
        = Some {| cap := 10;
                  buf := [joinMsg "B"; "[B]: 1"; "[B]: 2"; "[B]: 3"; "[B]: 4"; "[B]: 5";
                          "[B]: 6"; "[B]: 7"; "[B]: 8"; "[B]: 9"];
                  closed := false |}.
Proof.
  assert (Hr : reachable (after [OJoin "A"; OJoin "B"]))
    by (by exists [OJoin "A"; OJoin "B"]).
  split; [done|].
  apply (posts_keep_first_ten "B" "A" {| id := "A"; sendChan := 0 |}
           {| cap := 10; buf := [joinMsg "B"]; closed := false |}
           ["1"; "2"; "3"; "4"; "5"; "6"; "7"; "8"; "9"; "10"; "11"] _ Hr);
    [done | by vm_compute | by vm_compute].
Defined.

(** ** Join and leave notices *)

Lemma take_take_app {A} (n : nat) (l k : list A) :
  take n (take n l ++ k) = take n (l ++ k).
Proof.
  destruct (decide (length l ≤ n)%nat) as [Hle|Hgt].
  - by rewrite (take_ge l) by done.
  - rewrite (take_app_le l) by lia.
    rewrite take_app_le by (rewrite length_take; lia).
    rewrite take_take. f_equal. lia.
Qed.

Lemma enqueue_take s k c ch text :
  wf s → clients s !! k = Some c → heap s !! sendChan c = Some ch →
  enqueue text ch = {| cap := 10; buf := take 10 (buf ch ++ [text]); closed := false |}.
Proof.
  intros Hwf Hk Hch. rewrite (enqueue_registered s k c ch) by done.
  destruct (wf_chan s Hwf _ _ Hch) as (Hcap & Hle & _). rewrite Hcap in Hle.
  destruct (decide (length (buf ch) < 10)) as [Hlt|Hge].
  - rewrite take_ge; [done|]. rewrite length_app. simpl. lia.
  - rewrite take_app_le, take_ge by lia. by eapply chan_eta.
Qed.

Lemma leave_remove_registered k c ch s :
  wf s → clients s !! k = Some c → heap s !! sendChan c = Some ch →
  leave_remove k s
  = Some {| clients := delete k (clients s);
            nextID := nextID s;
            heap := <[sendChan c := {| cap := cap ch; buf := buf ch; closed := true |}]>
                      (heap s) |}.
Proof.
  intros Hwf Hk Hch. destruct (wf_open s Hwf _ _ Hk) as (ch' & Hch' & Hop).
  assert (ch' = ch) as -> by congruence.
  unfold leave_remove. rewrite Hk, Hch. simpl. unfold chan_close. by rewrite Hop.
Qed.

Lemma Leave_registered_spec k c ch s :
  wf s → clients s !! k = Some c → heap s !! sendChan c = Some ch →
  ∃ s', Leave {| req_ClientID := k |} s = Some (s', {| res_ClientID := k |}, None) ∧
        clients s' = delete k (clients s) ∧
        heap s' !! sendChan c
        = Some {| cap := cap ch; buf := buf ch; closed := true |} ∧
        (∀ b cb chb, b ≠ k → clients s !! b = Some cb →
                     heap s !! sendChan cb = Some chb →
           heap s' !! sendChan cb
           = Some {| cap := 10; buf := take 10 (buf chb ++ [leaveMsg k]);
                     closed := false |}).
Proof.
  intros Hwf Hk Hch.
  destruct (Leave_spec k s Hwf) as (s1 & s' & Hrm & Hwf1 & Hrun & _ & Hcl & Hin & Hout).
  rewrite (leave_remove_registered k c ch s) in Hrm by done. injection Hrm as <-.
  simpl in *. exists s'. split_and!; [done | done | |].
  - rewrite Hout.
    + simpl. apply list_lookup_insert_eq. by eapply lookup_lt_Some.
    + intros (k' & c' & Hk' & Hne & Heq). simpl in Hk'.
      rewrite lookup_delete_ne in Hk' by done.
      apply Hne. by eapply (wf_inj s Hwf).
  - intros b cb chb Hb Hkb Hchb.
    rewrite Hin.
    + simpl. rewrite list_lookup_insert_ne.
      * rewrite Hchb. simpl. f_equal. by apply (enqueue_take s b cb chb).
      * intros Heq. apply Hb. symmetry. by eapply (wf_inj s Hwf).
    + exists b, cb. simpl. rewrite lookup_delete_ne by done. by split_and!.
Qed.

(** X6: when [k] joins, every other registered client gets the text
    "<sign> User k joined" behind what is pending for it, unless 10 texts
    are pending already; its registration is untouched. *)
Theorem Join_notifies_others k b cb chb s :
  reachable s →
  b ≠ k →
  clients s !! b = Some cb →
  heap s !! sendChan cb = Some chb →
  ∃ s', Join {| req_ClientID := k |} s = Some (s', {| res_ClientID := k |}, None) ∧
        clients s' !! b = Some cb ∧
        heap s' !! sendChan cb
        = Some {| cap := 10;
                  buf := take 10 (buf chb ++ [loudspeaker +:+ " User " +:+ k +:+ " joined"]);
                  closed := false |}.
Proof.
  intros Hwf%reachable_wf Hbk Hb Hchb.
  destruct (Join_spec k s Hwf) as (s' & Hrun & Hcl & _ & Hin & _).
  exists s'. split_and!; [done | |].
  - rewrite Hcl. by rewrite lookup_insert_ne.
  - rewrite Hin, Hchb by (exists b, cb; by split_and!).
    simpl. f_equal. by apply (enqueue_take s b cb chb).
Qed.

Lemma Join_notifies_others_witness :
  reachable (after [OJoin "A"]) ∧
  ∃ s', Join {| req_ClientID := "B" |} (after [OJoin "A"])
        = Some (s', {| res_ClientID := "B" |}, None) ∧
        clients s' !! "A" = Some {| id := "A"; sendChan := 0 |} ∧
        heap s' !! 0
        = Some {| cap := 10; buf := [loudspeaker +:+ " User B joined"]; closed := false |}.
Proof.
  assert (Hr : reachable (after [OJoin "A"])) by (by exists [OJoin "A"]).
  split; [done|].
  apply (Join_notifies_others "B" "A" {| id := "A"; sendChan := 0 |}
           {| cap := 10; buf := []; closed := false |} _ Hr);
    [done | by vm_compute | by vm_compute].
Defined.

(** X7: when a registered [k] leaves, its key is deleted, its channel is
    closed with the pending texts still in it, a [GetMessages] for [k] now
    returns the not-found error, and every other registered client gets the
    text "<sign> User k left" unless 10 texts are pending for it. *)
Theorem Leave_closes_and_notifies k c ch s :
  reachable s →
  clients s !! k = Some c →
  heap s !! sendChan c = Some ch →
  ∃ s', Leave {| req_ClientID := k |} s = Some (s', {| res_ClientID := k |}, None) ∧
        clients s' = delete k (clients s) ∧
        heap s' !! sendChan c
        = Some {| cap := cap ch; buf := buf ch; closed := true |} ∧
        GetMessages k s'
        = Some (Returned s' None (Some ("client " +:+ k +:+ " not found"))) ∧
        (∀ b cb chb, b ≠ k → clients s !! b = Some cb →
                     heap s !! sendChan cb = Some chb →
           heap s' !! sendChan cb
           = Some {| cap := 10;
                     buf := take 10 (buf chb ++ [loudspeaker +:+ " User " +:+ k +:+ " left"]);
                     closed := false |}).
Proof.
  intros Hwf%reachable_wf Hk Hch.
  destruct (Leave_registered_spec k c ch s Hwf Hk Hch) as (s' & Hrun & Hcl & Hown & Hoth).
  exists s'. split_and!; [done | done | done | | done].
  unfold GetMessages, GetMessages_lookup. by rewrite Hcl, lookup_delete_eq.
Qed.

Lemma Leave_closes_and_notifies_witness :
  reachable (after [OJoin "A"; OJoin "B"; OPost "B" "hi"]) ∧
  ∃ s', Leave {| req_ClientID := "A" |} (after [OJoin "A"; OJoin "B"; OPost "B" "hi"])
        = Some (s', {| res_ClientID := "A" |}, None) ∧
        clients s' = delete "A" (clients (after [OJoin "A"; OJoin "B"; OPost "B" "hi"])) ∧
        heap s' !! 0
        = Some {| cap := 10; buf := [joinMsg "B"; "[B]: hi"]; closed := true |} ∧
        GetMessages "A" s' = Some (Returned s' None (Some "client A not found")).
Proof.
  assert (Hr : reachable (after [OJoin "A"; OJoin "B"; OPost "B" "hi"]))
    by (by exists [OJoin "A"; OJoin "B"; OPost "B" "hi"]).
  split; [done|].
  destruct (Leave_closes_and_notifies "A" {| id := "A"; sendChan := 0 |}
              {| cap := 10; buf := [joinMsg "B"; "[B]: hi"]; closed := false |} _ Hr)
    as (s' & H1 & H2 & H3 & H4 & _); [by vm_compute | by vm_compute |].
  by exists s'.
Defined.

(** X8: a [Join] of [k] followed by a [Leave] of [k] ends with [k] not
    registered, whether or not it was registered before, and with the channel
    made by that [Join] closed and empty; every other registered client has
    been offered the join notice and then the leave notice. *)
Theorem Join_then_Leave k s :
  reachable s →
  ∃ s1 s2,
    Join {| req_ClientID := k |} s = Some (s1, {| res_ClientID := k |}, None) ∧
    Leave {| req_ClientID := k |} s1 = Some (s2, {| res_ClientID := k |}, None) ∧
    clients s2 = delete k (clients s) ∧
    heap s2 !! length (heap s) = Some {| cap := 10; buf := []; closed := true |} ∧
    (∀ b cb chb, b ≠ k → clients s !! b = Some cb →
                 heap s !! sendChan cb = Some chb →
       heap s2 !! sendChan cb
       = Some {| cap := 10; buf := take 10 (buf chb ++ [joinMsg k; leaveMsg k]);
                 closed := false |}).
Proof.
  intros Hwf%reachable_wf.
  destruct (Join_spec k s Hwf) as (s1 & Hrun1 & Hcl1 & Hnew & Hin1 & _).
  assert (Hwf1 : wf s1).
  { apply (run_wf (OJoin k) s s1 Hwf). simpl. by rewrite Hrun1. }
  assert (Hk1 : clients s1 !! k = Some {| id := k; sendChan := length (heap s) |}).
  { rewrite Hcl1. apply lookup_insert_eq. }
  destruct (Leave_registered_spec k _ _ s1 Hwf1 Hk1 Hnew) as (s2 & Hrun2 & Hcl2 & Hown & Hoth).
  exists s1, s2. split_and!; [done | done | | done |].
  - rewrite Hcl2, Hcl1. apply delete_insert_eq.
  - intros b cb chb Hb Hkb Hchb.
    assert (Hr : recipient k s (sendChan cb)) by (exists b, cb; by split_and!).
    pose proof (Hin1 _ Hr) as H1. rewrite Hchb in H1. simpl in H1.
    rewrite (enqueue_take s b cb chb) in H1 by done.
    rewrite (Hoth b cb _ Hb) by (rewrite ?Hcl1, ?lookup_insert_ne; done).
    simpl. do 2 f_equal. rewrite take_take_app. by rewrite <- app_assoc.
Qed.

Lemma Join_then_Leave_witness :
  reachable (after [OJoin "A"; OJoin "B"]) ∧
  ∃ s1 s2,
    Join {| req_ClientID := "B" |} (after [OJoin "A"; OJoin "B"])
      = Some (s1, {| res_ClientID := "B" |}, None) ∧
    Leave {| req_ClientID := "B" |} s1 = Some (s2, {| res_ClientID := "B" |}, None) ∧
    clients s2 = delete "B" (clients (after [OJoin "A"; OJoin "B"])) ∧
    heap s2 !! 2 = Some {| cap := 10; buf := []; closed := true |}.
Proof.
  assert (Hr : reachable (after [OJoin "A"; OJoin "B"]))
    by (by exists [OJoin "A"; OJoin "B"]).
  split; [done|].
  destruct (Join_then_Leave "B" _ Hr) as (s1 & s2 & H1 & H2 & H3 & H4 & _).
  by exists s1, s2.
Defined.

(** ** Closed channels *)

Lemma closed_not_recipient sender s a ch :
  wf s → heap s !! a = Some ch → closed ch = true → ¬ recipient sender s a.
Proof.
  intros Hwf Ha Hcl (k & c & Hk & _ & <-).
  destruct (wf_open s Hwf _ _ Hk) as (ch' & Hch' & Hop). congruence.
Qed.

Lemma GetMessages_recv_frame c s r a :
  GetMessages_recv c s = Some r → a ≠ sendChan c →
  heap (poll_state s r) !! a = heap s !! a.
Proof.
  unfold GetMessages_recv. destruct (heap s !! sendChan c) as [ch|]; simpl; [|done].
  destruct (chan_recv ch); intros [= <-] Hne; simpl; [|done].
  by rewrite list_lookup_insert_ne.
Qed.

Lemma run_closed_frozen o s s' a ch :
  wf s → heap s !! a = Some ch → closed ch = true → run o s = Some s' →
  ∃ ch', heap s' !! a = Some ch' ∧ closed ch' = true ∧ cap ch' = cap ch ∧
         buf ch' `suffix_of` buf ch.
Proof.
  intros Hwf Ha Hcl.
  assert (Hsame : heap s' !! a = heap s !! a →
            ∃ ch', heap s' !! a = Some ch' ∧ closed ch' = true ∧ cap ch' = cap ch ∧
                   buf ch' `suffix_of` buf ch).
  { intros ->. by exists ch. }
  destruct o as [k|k m|k|k|c]; simpl.
  - destruct (Join_spec k s Hwf) as (s2 & -> & _ & _ & _ & Hout). simpl.
    intros [= <-]. apply Hsame, Hout; [by eapply lookup_lt_Some|].
    by eapply closed_not_recipient.
  - destruct (SendMessage_spec {| msg_ClientID := k; Content := m |} s Hwf)
      as (s2 & -> & _ & _ & _ & Hout). simpl.
    intros [= <-]. apply Hsame, Hout. by eapply closed_not_recipient.
  - destruct (Leave_spec k s Hwf) as (s1 & s2 & Hrm & Hwf1 & -> & _ & _ & _ & Hout).
    simpl. intros [= <-].
    assert (H1 : heap s1 !! a = Some ch).
    { destruct (clients s !! k) as [c|] eqn:Hk.
      - destruct (wf_open s Hwf _ _ Hk) as (ch0 & Hch0 & Hop).
        rewrite (leave_remove_registered k c ch0 s) in Hrm by done.
        injection Hrm as <-. simpl. rewrite list_lookup_insert_ne; [done|].
        intros <-. congruence.
      - rewrite leave_remove_absent in Hrm by done. by injection Hrm as <-. }
    apply Hsame. rewrite Hout; [congruence|]. by eapply closed_not_recipient.
  - unfold GetMessages, GetMessages_lookup.
    destruct (clients s !! k) as [c|] eqn:Hk; [|intros [= <-]; by apply Hsame].
    destruct (GetMessages_recv c s) as [r|] eqn:Hr; simpl; [|done].
    intros [= <-]. apply Hsame, (GetMessages_recv_frame c); [done|].
    intros ->. destruct (wf_open s Hwf _ _ Hk) as (ch0 & Hch0 & Hop). congruence.
  - destruct (GetMessages_recv c s) as [r|] eqn:Hr; simpl; [|done].
    intros [= <-]. destruct (decide (a = sendChan c)) as [->|Hne];
      [|by apply Hsame, (GetMessages_recv_frame c)].
    unfold GetMessages_recv in Hr. rewrite Ha in Hr. simpl in Hr.
    unfold chan_recv in Hr. destruct (buf ch) as [|m rest] eqn:Hbuf.
    + rewrite Hcl in Hr. injection Hr as <-. simpl.
      rewrite list_lookup_insert_eq by (by eapply lookup_lt_Some).
      exists ch. by rewrite Hbuf.
    + injection Hr as <-. simpl.
      rewrite list_lookup_insert_eq by (by eapply lookup_lt_Some).
      eexists. split_and!; [done | done | done |]. simpl.
      by apply suffix_cons_r.
Qed.

(** X9: a closed channel never gets another text, and is never reopened.
    Whatever operations follow, the texts in it are a tail of the texts it
    held: a receive that was under way can still take them out, oldest
    first, and nothing is put in. *)
Theorem closed_channel_only_drains ops : ∀ s s' a ch,
  reachable s →
  heap s !! a = Some ch →
  closed ch = true →
  run_all ops s = Some s' →
  ∃ ch', heap s' !! a = Some ch' ∧ closed ch' = true ∧ cap ch' = cap ch ∧
         buf ch' `suffix_of` buf ch.
Proof.
  assert (Hgen : ∀ s s' a ch, wf s → heap s !! a = Some ch → closed ch = true →
            run_all ops s = Some s' →
            ∃ ch', heap s' !! a = Some ch' ∧ closed ch' = true ∧ cap ch' = cap ch ∧
                   buf ch' `suffix_of` buf ch).
  { induction ops as [|o ops IH]; intros s s' a ch Hwf Ha Hcl; simpl.
    - intros [= <-]. by exists ch.
    - destruct (run o s) as [s1|] eqn:Hr; simpl; [|done]. intros Hrest.
      destruct (run_closed_frozen o s s1 a ch Hwf Ha Hcl Hr)
        as (ch1 & Ha1 & Hcl1 & Hcap1 & Hsuf1).
      destruct (IH s1 s' a ch1 (run_wf _ _ _ Hwf Hr) Ha1 Hcl1 Hrest)
        as (ch' & Ha' & Hcl' & Hcap' & Hsuf').
      exists ch'. split_and!; [done | done | congruence | by etrans]. }
  intros s s' a ch Hr. apply Hgen. by apply reachable_wf.
Qed.

Lemma closed_channel_only_drains_witness :
  reachable (after [OJoin "A"; OJoin "B"; OPost "B" "hi"; OLeave "A"]) ∧
  ∃ ch', heap (after ([OJoin "A"; OJoin "B"; OPost "B" "hi"; OLeave "A"]
                      ++ [OPost "B" "more"; OResume {| id := "A"; sendChan := 0 |};
                          OJoin "A"; OPost "B" "again"])) !! 0 = Some ch' ∧
         closed ch' = true ∧ cap ch' = 10 ∧
         buf ch' `suffix_of` [joinMsg "B"; "[B]: hi"].
Proof.
  assert (Hr : reachable (after [OJoin "A"; OJoin "B"; OPost "B" "hi"; OLeave "A"]))
    by (by exists [OJoin "A"; OJoin "B"; OPost "B" "hi"; OLeave "A"]).
  split; [done|].
  apply (closed_channel_only_drains
           [OPost "B" "more"; OResume {| id := "A"; sendChan := 0 |};
            OJoin "A"; OPost "B" "again"]
           (after [OJoin "A"; OJoin "B"; OPost "B" "hi"; OLeave "A"])
           _ 0 {| cap := 10; buf := [joinMsg "B"; "[B]: hi"]; closed := true |} Hr);
    by vm_compute.
Defined.

(** ** Channels that no key owns *)

Lemma unowned_not_recipient sender s a : unowned s a → ¬ recipient sender s a.
Proof. intros Hun (k & c & Hk & _ & Heq). by eapply Hun. Qed.

Lemma GetMessages_recv_clients c s r :
  GetMessages_recv c s = Some r → clients (poll_state s r) = clients s.
Proof.
  unfold GetMessages_recv. destruct (heap s !! sendChan c) as [ch|]; simpl; [|done].
  destruct (chan_recv ch); by intros [= <-].
Qed.

Lemma GetMessages_recv_drains c s r ch :
  heap s !! sendChan c = Some ch → GetMessages_recv c s = Some r →
  ∃ ch', heap (poll_state s r) !! sendChan c = Some ch' ∧
         closed ch' = closed ch ∧ buf ch' `suffix_of` buf ch.
Proof.
  intros Ha Hr. unfold GetMessages_recv in Hr. rewrite Ha in Hr. simpl in Hr.
  unfold chan_recv in Hr. destruct (buf ch) as [|m rest] eqn:Hbuf.
  - destruct (closed ch) eqn:Hcl; injection Hr as <-; simpl.
    + rewrite list_lookup_insert_eq by (by eapply lookup_lt_Some).
      exists ch. by rewrite Hbuf.
    + exists ch. by rewrite Hbuf.
  - injection Hr as <-. simpl.
    rewrite list_lookup_insert_eq by (by eapply lookup_lt_Some).
    eexists. split_and!; [done | done |]. simpl. by apply suffix_cons_r.
Qed.

Lemma run_unowned_frozen o s s' a ch :
  wf s → heap s !! a = Some ch → unowned s a → run o s = Some s' →
  unowned s' a ∧
  ∃ ch', heap s' !! a = Some ch' ∧ closed ch' = closed ch ∧
         buf ch' `suffix_of` buf ch.
Proof.
  intros Hwf Ha Hun.
  assert (Hsame : heap s' !! a = heap s !! a →
            ∃ ch', heap s' !! a = Some ch' ∧ closed ch' = closed ch ∧
                   buf ch' `suffix_of` buf ch).
  { intros ->. by exists ch. }
  pose proof (lookup_lt_Some _ _ _ Ha) as Hlt.
  destruct o as [k|k m|k|k|c]; simpl.
  - destruct (Join_spec k s Hwf) as (s2 & -> & Hcl & _ & _ & Hout). simpl.
    intros [= <-]. split.
    + intros k' c'. rewrite Hcl, lookup_insert. case_decide.
      * intros [= <-]. simpl. lia.
      * apply Hun.
    + apply Hsame, Hout; [done | by apply unowned_not_recipient].
  - destruct (SendMessage_spec {| msg_ClientID := k; Content := m |} s Hwf)
      as (s2 & -> & Hcl & _ & _ & Hout). simpl.
    intros [= <-]. split.
    + intros k' c'. rewrite Hcl. apply Hun.
    + apply Hsame, Hout. by apply unowned_not_recipient.
  - destruct (Leave_spec k s Hwf) as (s1 & s2 & Hrm & Hwf1 & -> & Hdel & Hcl & _ & Hout).
    simpl. intros [= <-].
    assert (Hun1 : unowned s1 a).
    { intros k' c'. rewrite Hdel, lookup_delete. case_decide; [done | apply Hun]. }
    assert (H1 : heap s1 !! a = Some ch).
    { destruct (clients s !! k) as [c|] eqn:Hk.
      - destruct (wf_open s Hwf _ _ Hk) as (ch0 & Hch0 & Hop).
        rewrite (leave_remove_registered k c ch0 s) in Hrm by done.
        injection Hrm as <-. simpl. rewrite list_lookup_insert_ne; [done|].
        by eapply Hun.
      - rewrite leave_remove_absent in Hrm by done. by injection Hrm as <-. }
    split.
    + intros k' c'. rewrite Hcl. apply Hun1.
    + apply Hsame. rewrite Hout; [congruence | by apply unowned_not_recipient].
  - unfold GetMessages, GetMessages_lookup.
    destruct (clients s !! k) as [c|] eqn:Hk;
      [|intros [= <-]; split; [done | by apply Hsame]].
    destruct (GetMessages_recv c s) as [r|] eqn:Hr; simpl; [|done].
    intros [= <-]. split.
    + intros k' c'. rewrite (GetMessages_recv_clients c s r Hr). apply Hun.
    + apply Hsame, (GetMessages_recv_frame c); [done|].
      intros ->. by eapply Hun.
  - destruct (GetMessages_recv c s) as [r|] eqn:Hr; simpl; [|done].
    intros [= <-]. split.
    + intros k' c'. rewrite (GetMessages_recv_clients c s r Hr). apply Hun.
    + destruct (decide (a = sendChan c)) as [->|Hne].
      * by apply GetMessages_recv_drains.
      * by apply Hsame, (GetMessages_recv_frame c).
Qed.

(** X10: a channel that no key owns (one replaced by a later [Join] under
    the same identifier, or one closed by [Leave]) is out of reach for good.
    Whatever operations follow, no key comes to own it, nothing is put in
    it, and it is neither closed nor reopened; the texts in it are a tail
    of the texts it held. *)
Theorem unowned_channel_only_drains ops : ∀ s s' a ch,
  reachable s →
  heap s !! a = Some ch →
  (∀ k c, clients s !! k = Some c → sendChan c ≠ a) →
  run_all ops s = Some s' →
  (∀ k c, clients s' !! k = Some c → sendChan c ≠ a) ∧
  ∃ ch', heap s' !! a = Some ch' ∧ closed ch' = closed ch ∧
         buf ch' `suffix_of` buf ch.
Proof.
  assert (Hgen : ∀ s s' a ch, wf s → heap s !! a = Some ch → unowned s a →
            run_all ops s = Some s' →
            unowned s' a ∧
            ∃ ch', heap s' !! a = Some ch' ∧ closed ch' = closed ch ∧
                   buf ch' `suffix_of` buf ch).
  { induction ops as [|o ops IH]; intros s s' a ch Hwf Ha Hun; simpl.
    - intros [= <-]. split; [done | by exists ch].
    - destruct (run o s) as [s1|] eqn:Hr; simpl; [|done]. intros Hrest.
      destruct (run_unowned_frozen o s s1 a ch Hwf Ha Hun Hr)
        as (Hun1 & ch1 & Ha1 & Hcl1 & Hsuf1).
      destruct (IH s1 s' a ch1 (run_wf _ _ _ Hwf Hr) Ha1 Hun1 Hrest)
        as (Hun' & ch' & Ha' & Hcl' & Hsuf').
      split; [done|]. exists ch'. split_and!; [done | congruence | by etrans]. }
  intros s s' a ch Hr. apply Hgen. by apply reachable_wf.
Qed.

Lemma unowned_channel_only_drains_witness :
  reachable (after [OJoin "A"; OJoin "B"; OPost "B" "hi"; OJoin "A"]) ∧
  (∀ k c, clients (after ([OJoin "A"; OJoin "B"; OPost "B" "hi"; OJoin "A"]
                          ++ [OPost "B" "more"; OLeave "A"; OJoin "A"])) !! k = Some c →
          sendChan c ≠ 0) ∧
  ∃ ch', heap (after ([OJoin "A"; OJoin "B"; OPost "B" "hi"; OJoin "A"]
                      ++ [OPost "B" "more"; OLeave "A"; OJoin "A"])) !! 0 = Some ch' ∧
         closed ch' = false ∧
         buf ch' `suffix_of` [joinMsg "B"; "[B]: hi"].
Proof.
  assert (Hr : reachable (after [OJoin "A"; OJoin "B"; OPost "B" "hi"; OJoin "A"]))
    by (by exists [OJoin "A"; OJoin "B"; OPost "B" "hi"; OJoin "A"]).
  split; [done|].
  apply (unowned_channel_only_drains
           [OPost "B" "more"; OLeave "A"; OJoin "A"]
           (after [OJoin "A"; OJoin "B"; OPost "B" "hi"; OJoin "A"])
           _ 0 {| cap := 10; buf := [joinMsg "B"; "[B]: hi"]; closed := false |} Hr).
  - by vm_compute.
  - intros k c Hk Heq.
    destruct (decide (k = "A")) as [->|HA]; [by vm_compute in Hk; simplify_eq|].
    destruct (decide (k = "B")) as [->|HB]; [by vm_compute in Hk; simplify_eq|].
    assert (Hd : k ∈ dom (clients (after [OJoin "A"; OJoin "B"; OPost "B" "hi"; OJoin "A"])))
      by (apply elem_of_dom; by eexists).
    assert (Hdom : dom (clients (after [OJoin "A"; OJoin "B"; OPost "B" "hi"; OJoin "A"]))
                   = {["A"; "B"]}) by (by vm_compute).
    rewrite Hdom in Hd.
    apply elem_of_union in Hd as [Hd|Hd]; apply elem_of_singleton in Hd; done.
  - by vm_compute.
Defined.

(** ** Whose calls the pending texts come from *)

Lemma enqueue_Forall (P : string → Prop) text ch :
  P text → Forall P (buf ch) → Forall P (buf (enqueue text ch)).
Proof.
  intros Ht Hall. unfold enqueue, try_send.
  destruct (closed ch); [done|].
  destruct (decide (length (buf ch) < cap ch)); [|done].
  simpl. apply Forall_app. split; [done | by constructor].
Qed.

Section pending.
Variable P : string → string → Prop.

Lemma broadcastToOthers_pending sender text s s' :
  wf s → pending_all P s →
  (∀ k, sender ≠ k → P k text) →
  broadcastToOthers sender text s = Some s' →
  pending_all P s'.
Proof.
  intros Hwf Hinv Htext Hrun.
  destruct (broadcastToOthers_spec sender text s Hwf)
    as (s'' & Hrun' & Hcl & _ & _ & Hin & Hout).
  rewrite Hrun in Hrun'. injection Hrun' as <-.
  intros k c ch Hk Hch. rewrite Hcl in Hk.
  destruct (wf_open s Hwf _ _ Hk) as (ch0 & Hch0 & _).
  destruct (decide (k = sender)) as [->|Hne].
  - rewrite Hout in Hch.
    + by eapply Hinv.
    + intros (k' & c' & Hk' & Hne' & Heq). apply Hne'. by eapply (wf_inj s Hwf).
  - rewrite Hin, Hch0 in Hch by (exists k, c; by split_and!).
    injection Hch as <-. apply enqueue_Forall; [by apply Htext | by eapply Hinv].
Qed.

Lemma join_register_pending k s :
  wf s → pending_all P s → pending_all P (join_register k s).
Proof.
  intros Hwf Hinv k' c ch. unfold join_register. simpl.
  rewrite lookup_insert. case_decide as E.
  - intros [= <-]. simpl. rewrite lookup_app_r, Nat.sub_diag by done.
    intros [= <-]. constructor.
  - intros Hk Hch. rewrite lookup_app_l in Hch by (by eapply registered_lt).
    by eapply Hinv.
Qed.

Lemma leave_remove_pending k s s' :
  wf s → pending_all P s → leave_remove k s = Some s' → pending_all P s'.
Proof.
  intros Hwf Hinv Hrm.
  destruct (clients s !! k) as [c|] eqn:Hk.
  - destruct (wf_open s Hwf _ _ Hk) as (ch0 & Hch0 & _).
    rewrite (leave_remove_registered k c ch0 s) in Hrm by done.
    injection Hrm as <-. intros k' c' ch. simpl.
    rewrite lookup_delete. case_decide as E; [done|]. intros Hk' Hch.
    rewrite list_lookup_insert_ne in Hch; [by eapply Hinv|].
    intros Heq. apply E. by eapply (wf_inj s Hwf).
  - rewrite leave_remove_absent in Hrm by done. by injection Hrm as <-.
Qed.

Lemma GetMessages_recv_pending c s r :
  pending_all P s → GetMessages_recv c s = Some r →
  pending_all P (poll_state s r).
Proof.
  intros Hinv. unfold GetMessages_recv.
  destruct (heap s !! sendChan c) as [ch0|] eqn:Hch0; simpl; [|done].
  unfold chan_recv. destruct (buf ch0) as [|m rest] eqn:Hbuf.
  - destruct (closed ch0); intros [= <-]; simpl; [|done].
    by rewrite list_insert_id, state_eta.
  - intros [= <-] k' c' ch. simpl. intros Hk' Hch.
    destruct (decide (sendChan c' = sendChan c)) as [Heq|Hne].
    + rewrite Heq, list_lookup_insert_eq in Hch by (by eapply lookup_lt_Some).
      injection Hch as <-. simpl.
      rewrite <- Heq in Hch0. pose proof (Hinv _ _ _ Hk' Hch0) as Hall.
      rewrite Hbuf in Hall. by inversion Hall.
    + rewrite list_lookup_insert_ne in Hch by done. by eapply Hinv.
Qed.

End pending.

Lemma sent_by_other_mono hist hist' k t :
  hist ⊆ hist' → sent_by_other hist k t → sent_by_other hist' k t.
Proof.
  intros Hsub (k' & Hne & H). exists k'. split; [done|].
  destruct H as [[Hin ->]|[[Hin ->]|(m & Hin & ->)]].
  - left. split; [by apply Hsub | done].
  - right. left. split; [by apply Hsub | done].
  - right. right. exists m. split; [by apply Hsub | done].
Qed.

Lemma pending_all_mono hist hist' s :
  hist ⊆ hist' → pending_all (sent_by_other hist) s → pending_all (sent_by_other hist') s.
Proof.
  intros Hsub Hinv k c ch Hk Hch.
  eapply Forall_impl; [by eapply Hinv|].
  intros t. by apply sent_by_other_mono.
Qed.

(** One more operation [o] after the calls [hist]. *)
Lemma run_pending hist o s s' :
  wf s → pending_all (sent_by_other hist) s → run o s = Some s' →
  pending_all (sent_by_other (hist ++ [o])) s'.
Proof.
  intros Hwf Hinv0.
  assert (Hinv : pending_all (sent_by_other (hist ++ [o])) s).
  { eapply pending_all_mono; [|done]. intros x Hx. apply elem_of_app. by left. }
  assert (Ho : o ∈ (hist ++ [o])%list).
  { apply elem_of_app. right. by apply list_elem_of_singleton. }
  clear Hinv0. destruct o as [k|k m|k|k|c]; simpl.
  - unfold Join. simpl.
    destruct (broadcastToOthers k (joinMsg k) (join_register k s)) as [s2|] eqn:Hb;
      simpl; [|done].
    intros [= <-].
    eapply broadcastToOthers_pending;
      [by apply join_register_wf | by apply join_register_pending | | done].
    intros k' Hne. exists k. split; [done|]. left. by split.
  - unfold SendMessage. simpl.
    destruct (broadcastToOthers k (broadcastMsg k m) s) as [s2|] eqn:Hb; simpl; [|done].
    intros [= <-].
    eapply broadcastToOthers_pending; [done | done | | done].
    intros k' Hne. exists k. split; [done|]. right. right. exists m. by split.
  - unfold Leave. simpl.
    destruct (leave_remove k s) as [s1|] eqn:Hl; simpl; [|done].
    destruct (broadcastToOthers k (leaveMsg k) s1) as [s2|] eqn:Hb; simpl; [|done].
    intros [= <-].
    eapply broadcastToOthers_pending;
      [by eapply leave_remove_wf | by eapply leave_remove_pending | | done].
    intros k' Hne. exists k. split; [done|]. right. left. by split.
  - unfold GetMessages, GetMessages_lookup.
    destruct (clients s !! k) as [c|]; [|by intros [= <-]].
    destruct (GetMessages_recv c s) as [r|] eqn:Hr; simpl; [|done].
    intros [= <-]. by apply (GetMessages_recv_pending _ c).
  - destruct (GetMessages_recv c s) as [r|] eqn:Hr; simpl; [|done].
    intros [= <-]. by apply (GetMessages_recv_pending _ c).
Qed.

Lemma run_all_pending ops : ∀ hist s s',
  wf s → pending_all (sent_by_other hist) s → run_all ops s = Some s' →
  pending_all (sent_by_other (hist ++ ops)) s'.
Proof.
  induction ops as [|o ops IH]; intros hist s s' Hwf Hinv; simpl.
  - intros [= <-]. by rewrite app_nil_r.
  - destruct (run o s) as [s1|] eqn:Hr; simpl; [|done]. intros Hrest.
    replace (hist ++ o :: ops)%list with ((hist ++ [o]) ++ ops)%list
      by (by rewrite <- app_assoc).
    eapply IH; [by eapply run_wf | by eapply run_pending | done].
Qed.

(** X11: what is pending for a client was sent by calls of others.  In the
    state reached by the operations [ops], each text pending for a
    registered client [k] is the very text that some call among [ops], made
    under an identifier other than [k], handed to the broadcast: the notice
    of a [Join] or of a [Leave] in [ops], or the text of a [SendMessage] in
    [ops]. *)
Theorem pending_texts_come_from_others ops s k c ch t :
  run_all ops init = Some s →
  clients s !! k = Some c →
  heap s !! sendChan c = Some ch →
  t ∈ buf ch →
  ∃ k', k' ≠ k ∧
        ((OJoin k' ∈ ops ∧ t = loudspeaker +:+ " User " +:+ k' +:+ " joined") ∨
         (OLeave k' ∈ ops ∧ t = loudspeaker +:+ " User " +:+ k' +:+ " left") ∨
         (∃ m, OPost k' m ∈ ops ∧ t = "[" +:+ k' +:+ "]: " +:+ m)).
Proof.
  intros Hrun Hk Hch Ht.
  assert (Hinit : pending_all (sent_by_other []) init).
  { intros k0 c0 ch0 H. simpl in H. by rewrite lookup_empty in H. }
  pose proof (run_all_pending ops [] init s init_wf Hinit Hrun k c ch Hk Hch) as Hall.
  rewrite Forall_forall in Hall. apply (Hall t Ht).
Qed.

Lemma pending_texts_come_from_others_witness :
  run_all [OJoin "A"; OJoin "B"; OPost "B" "hi"] init
    = Some (after [OJoin "A"; OJoin "B"; OPost "B" "hi"]) ∧
  ∃ k', k' ≠ "A" ∧
        ((OJoin k' ∈ [OJoin "A"; OJoin "B"; OPost "B" "hi"] ∧
          "[B]: hi" = loudspeaker +:+ " User " +:+ k' +:+ " joined") ∨
         (OLeave k' ∈ [OJoin "A"; OJoin "B"; OPost "B" "hi"] ∧
          "[B]: hi" = loudspeaker +:+ " User " +:+ k' +:+ " left") ∨
         (∃ m, OPost k' m ∈ [OJoin "A"; OJoin "B"; OPost "B" "hi"] ∧
               "[B]: hi" = "[" +:+ k' +:+ "]: " +:+ m)).
Proof.
  assert (Hrun : run_all [OJoin "A"; OJoin "B"; OPost "B" "hi"] init
                 = Some (after [OJoin "A"; OJoin "B"; OPost "B" "hi"])) by (by vm_compute).
  split; [done|].
  apply (pending_texts_come_from_others _ _ "A" {| id := "A"; sendChan := 0 |}
           {| cap := 10; buf := [joinMsg "B"; "[B]: hi"]; closed := false |} _ Hrun).
  - by vm_compute.
  - by vm_compute.
  - simpl. apply elem_of_cons. right. apply elem_of_cons. by left.
Defined.

(** A client that alone posts hears nothing back: with "A" and "B"
    registered and only "A" posting, nothing "A" posted is pending for "A",
    although the same bytes could be built under another identifier. *)
Example own_post_not_pending :
  broadcastMsg "A" "]: x" = broadcastMsg "A]: " "x" ∧
  (buf <$> heap (after [OJoin "A"; OJoin "B"; OPost "A" "]: x"]) !! 0)
    = Some [joinMsg "B"] ∧
  (buf <$> heap (after [OJoin "A"; OJoin "B"; OPost "A" "]: x"]) !! 1)
    = Some ["[A]: ]: x"].
Proof. split_and!; by vm_compute. Qed.

(** ** The client *)

(** X12: two clients get the same identifier exactly when their clock
    readings have the same remainder by 100000. *)
Theorem clientID_same_iff n1 n2 :
  clientID n1 = clientID n2 ↔ (n1 `rem` 100000 = n2 `rem` 100000)%Z.
Proof.
  unfold clientID. split.
  - intros H. apply (inj (String.app "User_")) in H. by apply (inj pretty) in H.
  - by intros ->.
Qed.

Example clientID_reading : clientID 1700000000123456789 = "User_56789".
Proof. by vm_compute. Qed.

Example clientID_collision : clientID 1700000000123456789 = clientID 1700000000223456789.
Proof. by vm_compute. Qed.

(** X13: as long as no read trims to "exit", [handleUserInput] posts, under
    the client's identifier and in order, exactly the trimmed reads that are
    not empty, and it does not call [Leave]. *)
Theorem handleUserInput_posts_nonempty_lines TrimSpace k reads :
  "exit" ∉ (TrimSpace <$> reads) →
  handleUserInput TrimSpace k reads
  = (OPost k <$> filter (λ m, m ≠ "") (TrimSpace <$> reads), false).
Proof.
  induction reads as [|raw rest IH]; simpl; [done|].
  intros Hnot. apply not_elem_of_cons in Hnot as [Hne Hrest].
  destruct (decide (TrimSpace raw = "")) as [He|He].
  - rewrite filter_cons_False by (intros H; by apply H). by apply IH.
  - rewrite decide_False by done. rewrite (IH Hrest).
    by rewrite filter_cons_True by done.
Qed.

Lemma handleUserInput_posts_nonempty_lines_witness :
  ("exit" ∉ ((λ raw, raw) <$> ["hello"; ""; "exit now"])) ∧
  handleUserInput (λ raw, raw) "User_7" ["hello"; ""; "exit now"]
  = ([OPost "User_7" "hello"; OPost "User_7" "exit now"], false).
Proof.
  assert (H : "exit" ∉ ((λ raw : string, raw) <$> ["hello"; ""; "exit now"])).
  { simpl. repeat (apply not_elem_of_cons; split; [done|]). apply not_elem_of_nil. }
  split; [done|].
  apply (handleUserInput_posts_nonempty_lines (λ raw, raw) "User_7" _ H).
Defined.

(** X14: the first read that trims to "exit" ends the session: the posts
    made for the reads before it are followed by one [Leave] under the
    client's identifier, and whatever is read after it causes no call. *)
Theorem handleUserInput_exit_leaves TrimSpace k before raw later :
  "exit" ∉ (TrimSpace <$> before) →
  TrimSpace raw = "exit" →
  handleUserInput TrimSpace k (before ++ raw :: later)%list
  = (((OPost k <$> filter (λ m, m ≠ "") (TrimSpace <$> before)) ++ [OLeave k])%list, true).
Proof.
  intros Hnot Hexit. induction before as [|r0 before IH]; simpl.
  - rewrite Hexit. done.
  - simpl in Hnot. apply not_elem_of_cons in Hnot as [Hne Hrest].
    destruct (decide (TrimSpace r0 = "")) as [He|He].
    + rewrite filter_cons_False by (intros H; by apply H). by apply IH.
    + rewrite decide_False by done. rewrite (IH Hrest).
      by rewrite filter_cons_True by done.
Qed.

Lemma handleUserInput_exit_leaves_witness :
  ("exit" ∉ ((λ raw, raw) <$> ["hello"; ""])) ∧
  handleUserInput (λ raw, raw) "User_7" (["hello"; ""] ++ "exit" :: ["too late"; "exit"])%list
  = ([OPost "User_7" "hello"; OLeave "User_7"], true).
Proof.
  assert (H : "exit" ∉ ((λ raw : string, raw) <$> ["hello"; ""])).
  { simpl. repeat (apply not_elem_of_cons; split; [done|]). apply not_elem_of_nil. }
  split; [done|].
  apply (handleUserInput_exit_leaves (λ raw, raw) "User_7" _ "exit" _ H). done.
Defined.

Lemma handleUserInput_shape TrimSpace k reads :
  ∃ ms, handleUserInput TrimSpace k reads
        = (((OPost k <$> ms)
              ++ (if (handleUserInput TrimSpace k reads).2 then [OLeave k] else []))%list,
           (handleUserInput TrimSpace k reads).2).
Proof.
  induction reads as [|raw rest IH]; simpl.
  - by exists [].
  - destruct (decide (TrimSpace raw = "")); [done|].
    destruct (decide (TrimSpace raw = "exit")); [by exists []|].
    destruct IH as [ms IH]. destruct (handleUserInput TrimSpace k rest) as [calls exited].
    simpl in *. injection IH as ->. by exists (TrimSpace raw :: ms).
Qed.

Lemma posts_keep_clients a ms : ∀ s,
  wf s →
  ∃ s', run_all (OPost a <$> ms) s = Some s' ∧ wf s' ∧ clients s' = clients s.
Proof.
  induction ms as [|m ms IH]; intros s Hwf; simpl; [by exists s|].
  destruct (SendMessage_spec {| msg_ClientID := a; Content := m |} s Hwf)
    as (s1 & Hrun & Hcl & _).
  assert (Hwf1 : wf s1).
  { apply (run_wf (OPost a m) s s1 Hwf). simpl. by rewrite Hrun. }
  destruct (IH s1 Hwf1) as (s' & Hrun' & Hwf' & Hcl').
  exists s'. rewrite Hrun. simpl. split_and!; [done | done | congruence].
Qed.

(** X15: a client's own calls, run against the server with nothing in
    between, all return; they leave the client registered, with the channel
    its [Join] made, as long as "exit" was not read, and not registered once
    it was. *)
Theorem client_main_registration TrimSpace nanos reads s :
  reachable s →
  ∃ s', run_all (client_main TrimSpace nanos reads).1 s = Some s' ∧
        clients s'
        = if (client_main TrimSpace nanos reads).2
          then delete (clientID nanos) (clients s)
          else <[clientID nanos := {| id := clientID nanos; sendChan := length (heap s) |}]>
                 (clients s).
Proof.
  intros Hwf%reachable_wf. unfold client_main.
  destruct (handleUserInput_shape TrimSpace (clientID nanos) reads) as [ms Hshape].
  destruct (handleUserInput TrimSpace (clientID nanos) reads) as [calls exited].
  simpl in Hshape. injection Hshape as ->. simpl.
  destruct (Join_spec (clientID nanos) s Hwf) as (s1 & Hrun1 & Hcl1 & _).
  assert (Hwf1 : wf s1).
  { apply (run_wf (OJoin (clientID nanos)) s s1 Hwf). simpl. by rewrite Hrun1. }
  rewrite Hrun1. simpl.
  destruct (posts_keep_clients (clientID nanos) ms s1 Hwf1) as (s2 & Hrun2 & Hwf2 & Hcl2).
  rewrite run_all_app, Hrun2. simpl. destruct exited; simpl.
  - destruct (Leave_spec (clientID nanos) s2 Hwf2)
      as (s3 & s4 & _ & _ & Hrun3 & Hdel & Hcl3 & _).
    rewrite Hrun3. simpl. exists s4. split; [done|].
    rewrite Hcl3, Hdel, Hcl2, Hcl1. apply delete_insert_eq.
  - exists s2. split; [done | congruence].
Qed.

Lemma client_main_registration_witness :
  reachable (after [OJoin "A"]) ∧
  ∃ s', run_all (client_main (λ raw, raw) 123456789 ["hello"; ""; "exit"; "late"]).1
          (after [OJoin "A"]) = Some s' ∧
        clients s' = delete "User_56789" (clients (after [OJoin "A"])).
Proof.
  assert (Hr : reachable (after [OJoin "A"])) by (by exists [OJoin "A"]).
  split; [done|].
  apply (client_main_registration (λ raw, raw) 123456789 ["hello"; ""; "exit"; "late"] _ Hr).
Defined.

End Chat.
